(** * The container Operator of wr (package [container])

    A shallow embedding of [container/container.go]: the [Operator] that wraps
    a container runtime client (the [Interactor]), remembers the ids of the
    containers it has seen, reports the containers that are new since then and
    resolves a container id from an id file given by path or by glob.

    Go values are modelled as follows.
    - A Go [string] is a sequence of bytes: a Rocq [string].
    - A Go slice is a [list]; the nil slice and the empty slice are both [[]].
    - A Go [error] is an [option error]: [None] is the nil error.
    - A function returning [(T, error)] returns a pair [T * option error],
      as the code builds it.
    - The [Operator] is reached through a pointer and its methods call out to
      the backend and to the file system: methods are computations in a state
      monad [M] whose state holds the operator and the outside world. *)

From Stdlib Require Import String Ascii ZArith.
From stdpp Require Import base option list strings gmap.

Set Warnings "-clear-no-such-hyp".

Local Open Scope string_scope.
Local Open Scope list_scope.
Local Open Scope stdpp_scope.

(** ** The functions of Go's [strings] package that the code calls *)

Module strings.

(** [s[n:]] *)
Definition slice_from (n : nat) (s : string) : string :=
  substring n (String.length s - n) s.

(** [s[:n]] *)
Definition slice_to (n : nat) (s : string) : string :=
  substring 0 n s.

(** [len(s) >= len(prefix) && s[:len(prefix)] == prefix] *)
Definition HasPrefix (s prefix : string) : bool :=
  (String.length prefix <=? String.length s)%nat
  && String.eqb (slice_to (String.length prefix) s) prefix.

(** [len(s) >= len(suffix) && s[len(s)-len(suffix):] == suffix] *)
Definition HasSuffix (s suffix : string) : bool :=
  (String.length suffix <=? String.length s)%nat
  && String.eqb (slice_from (String.length s - String.length suffix) s) suffix.

Definition TrimPrefix (s prefix : string) : string :=
  if HasPrefix s prefix then slice_from (String.length prefix) s else s.

Definition TrimSuffix (s suffix : string) : string :=
  if HasSuffix s suffix
  then slice_to (String.length s - String.length suffix) s
  else s.

(** [strings.TrimLeft] for a cutset of ASCII bytes, which Go trims byte by
    byte: [for len(s) > 0 { if !as.contains(s[0]) { break }; s = s[1:] }]. *)
Fixpoint TrimLeft (s cutset : string) : string :=
  match s with
  | EmptyString => s
  | String c rest =>
      if existsb (Ascii.eqb c) (list_ascii_of_string cutset)
      then TrimLeft rest cutset
      else s
  end.

End strings.

(** The one-byte strings the code trims. *)
Definition newline : string := String "010"%char EmptyString.
Definition slash : string := "/".

(** ** Errors *)

(** [OperationErr]: the reasons for the failed operations. *)
Inductive OperationErr : Type :=
| ErrContainerList
| ErrContainerStats
| ErrContainerKill.

Definition OperationErr_string (t : OperationErr) : string :=
  match t with
  | ErrContainerList => "Could not list the containers"
  | ErrContainerStats => "Could not get the container stats"
  | ErrContainerKill => "Container could not be killed"
  end.

(** A Go [error] value that is not nil: either an error made by a
    collaborator (the backend, the file system), of which only the message is
    known, or an [OperatorErr] made by this package, which records a reason
    and the error that caused it ([Err] may be nil). *)
#[warnings="-register-all"]
Inductive error : Type :=
| ForeignErr (msg : string)
| OperatorErr (Type_ : OperationErr) (Err : option error).

(** [Error()] of an error value. *)
Fixpoint Error (e : error) : string :=
  match e with
  | ForeignErr msg => msg
  | OperatorErr t cause =>
      let msg := OperationErr_string t in
      match cause with
      | Some c => msg +:+ " [" +:+ Error c +:+ "]"
      | None => msg
      end
  end.

(** ** Entities *)

Record Container : Type := mkContainer {
  ID : string;
  Names : list string
}.

Record Stats : Type := mkStats {
  MemoryMB : Z;
  CPUSec : Z
}.

(** ** Collaborators and the Operator *)

(** [Interactor]: the methods to query containers.  [Ctx] is
    [context.Context]; [W] is the state of everything outside the operator
    (the container runtime, the file system), which a call to a collaborator
    may read and change.  The interface has a module of its own because
    [ContainerStats] is also a method of the operator.  [ContainerStats]
    returns a pointer, which may be nil: an [option Stats]. *)
Module Interactor.
Record t (Ctx W : Type) : Type := mk {
  ContainerList : Ctx → W → (list Container * option error) * W;
  ContainerStats : Ctx → string → W → (option Stats * option error) * W;
  ContainerKill : Ctx → string → W → option error * W
}.
Arguments mk {Ctx W} _ _ _.
Arguments ContainerList {Ctx W} _ _ _.
Arguments ContainerStats {Ctx W} _ _ _ _.
Arguments ContainerKill {Ctx W} _ _ _ _.
End Interactor.

(** The file system calls of the code: [fs.RelToAbsPath] and [fs.ReadFile]
    of package [fs/filepath], [os.Stat] (of which the code keeps only the
    error) and [filepath.Glob].  They are not part of this package and are
    taken as given. *)
Module FileSystem.
Record t (W : Type) : Type := mk {
  RelToAbsPath : string → string → string;
  Stat : string → W → option error * W;
  ReadFile : string → W → (string * option error) * W;
  Glob : string → W → (list string * option error) * W
}.
Arguments mk {W} _ _ _ _.
Arguments RelToAbsPath {W} _ _ _.
Arguments Stat {W} _ _ _.
Arguments ReadFile {W} _ _ _.
Arguments Glob {W} _ _ _.
End FileSystem.

Section Operator.

Context {Ctx W : Type}.

#[local] Abbreviation Interactor := (Interactor.t Ctx W).

Variable fs : FileSystem.t W.



Record Operator : Type := mkOperator {
  client : Interactor;
  existingContainers : gmap string bool
}.

Definition NewOperator (cntrInteractor : Interactor) : Operator :=
  {| client := cntrInteractor; existingContainers := ∅ |}.

(** [m[k]] on a Go [map[string]bool]: the zero value when [k] is absent. *)
Definition map_index (m : gmap string bool) (k : string) : bool :=
  default false (m !! k).

(** The remembered set: the ids [k] with [o.existingContainers[k]] true. *)
Definition remembered (o : Operator) : gset string :=
  dom (filter (λ kv, kv.2 = true) (existingContainers o)).

(** *** The monad of the methods *)

Record State : Type := mkState {
  op : Operator;
  world : W
}.

Definition M (A : Type) : Type := State → A * State.

#[global] Instance M_ret : MRet M := λ A a s, (a, s).
#[global] Instance M_bind : MBind M :=
  λ A B k m s, let '(a, s') := m s in k a s'.

(** The state once the world has moved on to [w]: the operator is kept. *)
Definition with_world (s : State) (w : W) : State :=
  {| op := op s; world := w |}.

(** A call to a method of [o.client]. *)
Definition call_client {A} (f : Interactor → W → A * W) : M A :=
  λ s, let '(a, w) := f (client (op s)) (world s) in (a, with_world s w).

(** A call to the file system. *)
Definition call_fs {A} (f : W → A * W) : M A :=
  λ s, let '(a, w) := f (world s) in (a, with_world s w).

(** [o.existingContainers[id]] *)
Definition read_existing (id : string) : M bool :=
  λ s, (map_index (existingContainers (op s)) id, s).

(** [o.existingContainers[id] = true] *)
Definition write_existing (id : string) : M unit :=
  λ s, (tt, {| op := {| client := client (op s);
                        existingContainers :=
                          <[id := true]> (existingContainers (op s)) |};
               world := world s |}).

(** *** Querying *)

Definition GetCurrentContainers (ctx : Ctx)
  : M (list Container * option error) :=
  '(contnrList, err) ← call_client (λ c, Interactor.ContainerList c ctx);
  match err with
  | Some e => mret ([], Some (OperatorErr ErrContainerList (Some e)))
  | None => mret (contnrList, None)
  end.

(** [HasName]: the receiver is not used, so this is a function of its
    arguments.  The loop is over [container.Names]. *)
Fixpoint has_name_loop (name : string) (names : list string) : bool :=
  match names with
  | [] => false
  | cname :: rest =>
      let cname := strings.TrimPrefix cname slash in
      if String.eqb cname name then true else has_name_loop name rest
  end.

Definition HasName (name : string) (container : Container) : bool :=
  has_name_loop name (Names container).

(** The loop of [GetNewContainerIDs]: [newContainersIDs[idx] = container.ID]
    for the containers from index [idx] on. *)
Fixpoint ids_loop (idx : nat) (newContainers : list Container)
    (newContainersIDs : list string) : list string :=
  match newContainers with
  | [] => newContainersIDs
  | container :: rest =>
      ids_loop (S idx) rest (<[idx := ID container]> newContainersIDs)
  end.

(** The loop of [GetNewContainerIDByName]. *)
Fixpoint by_name_loop (name : string) (newContainers : list Container)
  : string * option error :=
  match newContainers with
  | [] => ("", None)
  | cntr :: rest =>
      if HasName name cntr then (ID cntr, None) else by_name_loop name rest
  end.

(** The loop of [verifyID]. *)
Fixpoint verify_loop (id : string) (curContainers : list Container)
  : bool * option error :=
  match curContainers with
  | [] => (false, None)
  | container :: rest =>
      if String.eqb (ID container) id then (true, None)
      else verify_loop id rest
  end.

(** *** Checkpoint and diff *)

(** The loop of [RememberCurrentContainerIDs]. *)
Fixpoint remember_loop (curContainers : list Container) : M unit :=
  match curContainers with
  | [] => mret tt
  | container :: rest =>
      _ ← write_existing (ID container);
      remember_loop rest
  end.

Definition RememberCurrentContainerIDs (ctx : Ctx) : M (option error) :=
  '(curContainers, err) ← GetCurrentContainers ctx;
  match err with
  | Some e => mret (Some e)
  | None =>
      _ ← remember_loop curContainers;
      mret None
  end.

(** The loop of [GetNewContainers]; [newContainers] is the slice built so
    far. *)
Fixpoint new_loop (curContainers newContainers : list Container)
  : M (list Container) :=
  match curContainers with
  | [] => mret newContainers
  | container :: rest =>
      seen ← read_existing (ID container);
      if negb seen
      then new_loop rest (newContainers ++ [container])
      else new_loop rest newContainers
  end.

Definition GetNewContainers (ctx : Ctx)
  : M (list Container * option error) :=
  '(curContainers, err) ← GetCurrentContainers ctx;
  match err with
  | Some e => mret ([], Some e)
  | None =>
      newContainers ← new_loop curContainers [];
      mret (newContainers, None)
  end.

Definition GetNewContainerIDs (ctx : Ctx) : M (list string * option error) :=
  '(newContainers, err) ← GetNewContainers ctx;
  match err with
  | Some e => mret ([], Some e)
  | None =>
      let newContainersIDs := replicate (length newContainers) "" in
      mret (ids_loop 0 newContainers newContainersIDs, None)
  end.

Definition GetNewContainerIDByName (ctx : Ctx) (name : string)
  : M (string * option error) :=
  '(newContainers, err) ← GetNewContainers ctx;
  match err with
  | Some e => mret ("", Some e)
  | None => mret (by_name_loop name newContainers)
  end.

(** *** Identity resolution from a path *)

Definition verifyID (ctx : Ctx) (id : string) : M (bool * option error) :=
  '(curContainers, err) ← GetCurrentContainers ctx;
  match err with
  | Some e => mret (false, Some e)
  | None => mret (verify_loop id curContainers)
  end.

Definition cidPathToID (ctx : Ctx) (cidPath : string)
  : M (string * option error) :=
  '(fileContent, err) ← call_fs (FileSystem.ReadFile fs cidPath);
  match err with
  | Some e => mret ("", Some e)
  | None =>
      let id := strings.TrimSuffix fileContent newline in
      '(ok, err) ← verifyID ctx id;
      if ok : bool then mret (id, None) else mret ("", err)
  end.

(** The loop of [cidPathGlobToID]. *)
Fixpoint glob_loop (ctx : Ctx) (paths : list string)
  : M (string * option error) :=
  match paths with
  | [] => mret ("", None)
  | path :: rest =>
      '(id, err) ← cidPathToID ctx path;
      match err with
      | Some _ => glob_loop ctx rest
      | None =>
          if negb (String.eqb id "") then mret (id, None)
          else glob_loop ctx rest
      end
  end.

Definition cidPathGlobToID (ctx : Ctx) (cidGlobPath : string)
  : M (string * option error) :=
  '(paths, err) ← call_fs (FileSystem.Glob fs cidGlobPath);
  match err with
  | Some e => mret ("", Some e)
  | None => glob_loop ctx paths
  end.

Definition GetContainerIDByPath (ctx : Ctx) (path dir : string)
  : M (string * option error) :=
  let cidPath := FileSystem.RelToAbsPath fs path dir in
  err ← call_fs (FileSystem.Stat fs cidPath);
  match err with
  | None => cidPathToID ctx cidPath
  | Some _ => cidPathGlobToID ctx cidPath
  end.

(** *** Stats and kill *)

Definition ContainerStats (ctx : Ctx) (containerID : string)
  : M (option Stats * option error) :=
  '(stats, err) ← call_client (λ c, Interactor.ContainerStats c ctx containerID);
  match err with
  | Some e => mret (None, Some e)
  | None => mret (stats, None)
  end.

Definition KillContainer (ctx : Ctx) (containerID : string)
  : M (option error) :=
  call_client (λ c, Interactor.ContainerKill c ctx containerID).

End Operator.

Arguments Operator : clear implicits.
Arguments State : clear implicits.
Arguments M : clear implicits.

(** ** The notions the properties are stated with *)

(** A string without its trailing newline, if it has one: one newline is
    removed and nothing else. *)
Fixpoint chop_newline (s : string) : string :=
  match s with
  | EmptyString => EmptyString
  | String c EmptyString => if Ascii.eqb c "010" then EmptyString else s
  | String c rest => String c (chop_newline rest)
  end.

Section Notions.

Context {Ctx W : Type}.
Variable fs : FileSystem.t W.

#[local] Abbreviation State := (State Ctx W).
#[local] Abbreviation Operator := (Operator Ctx W).
#[local] Abbreviation M := (M Ctx W).

Implicit Types (s : State) (o : Operator) (ctx : Ctx) (w : W).
Implicit Types (C : list Container) (e : error) (id name : string).

(** The list query of the operator's client, in state [s]. *)
Definition list_query ctx s : (list Container * option error) * W :=
  Interactor.ContainerList (client (op s)) ctx (world s).

(** The ids of a list of containers, as a set. *)
Definition ids_of C : gset string := list_to_set (ID <$> C).

(** The containers of [C] whose id is not remembered by [o], in the order of
    [C]. *)
Definition unseen o C : list Container :=
  filter (λ c, ID c ∉ remembered o) C.

(** A computation keeps the operator when the operator of the state it
    returns is the operator of the state it starts from. *)
Definition keeps_operator {A} (m : M A) : Prop :=
  ∀ s, op (m s).2 = op s.

(** The operator once the ids of [C] have been written to its map. *)
Definition remember_all o C : Operator :=
  {| client := client o;
     existingContainers :=
       foldl (λ m c, <[ID c := true]> m) (existingContainers o) C |}.

(** A sequence of successful calls of [RememberCurrentContainerIDs]:
    [remember_run ctx s Ls s'] when the calls start in state [s], observe the
    lists [Ls] in turn and leave the state [s'].  Between two calls the
    world may change in any way, and the operator is the one the previous
    call left. *)
Inductive remember_run ctx : State → list (list Container) → State → Prop :=
| run_done s : remember_run ctx s [] s
| run_call s C w s1 s2 Ls s' :
    list_query ctx s = ((C, None), w) →
    RememberCurrentContainerIDs ctx s = (None, s1) →
    op s2 = op s1 →
    remember_run ctx s2 Ls s' →
    remember_run ctx s (C :: Ls) s'.

(** An alias with one leading path separator stripped, if it has one. *)
Definition strip_slash (alias : string) : string :=
  match alias with
  | String c rest => if Ascii.eqb c "/" then rest else alias
  | EmptyString => alias
  end.

(** The container has an alias that, once stripped, is exactly [name]. *)
Definition named name (c : Container) : Prop :=
  ∃ alias, alias ∈ Names c ∧ strip_slash alias = name.

(** What checking one match [p] in state [s] gives: [Some id] when the file
    yields a valid id, [None] when the match is to be skipped, and the state
    afterwards.  The file yields a valid id when it can be read, the list
    query then succeeds, and the content without its trailing newline is the
    id of a listed container; the empty string, which is the answer for
    "not found", is never a valid id. *)
Inductive candidate ctx (p : string) (s : State)
  : option string → State → Prop :=
| cand_unreadable content e w1 :
    FileSystem.ReadFile fs p (world s) = ((content, Some e), w1) →
    candidate ctx p s None (with_world s w1)
| cand_list_failed content w1 C e w2 :
    FileSystem.ReadFile fs p (world s) = ((content, None), w1) →
    Interactor.ContainerList (client (op s)) ctx w1 = ((C, Some e), w2) →
    candidate ctx p s None (with_world s w2)
| cand_stale content w1 C w2 :
    FileSystem.ReadFile fs p (world s) = ((content, None), w1) →
    Interactor.ContainerList (client (op s)) ctx w1 = ((C, None), w2) →
    (∀ c, c ∈ C → ID c ≠ chop_newline content) →
    candidate ctx p s None (with_world s w2)
| cand_empty content w1 C w2 :
    FileSystem.ReadFile fs p (world s) = ((content, None), w1) →
    Interactor.ContainerList (client (op s)) ctx w1 = ((C, None), w2) →
    chop_newline content = "" →
    candidate ctx p s None (with_world s w2)
| cand_valid content w1 C w2 c :
    FileSystem.ReadFile fs p (world s) = ((content, None), w1) →
    Interactor.ContainerList (client (op s)) ctx w1 = ((C, None), w2) →
    c ∈ C →
    ID c = chop_newline content →
    chop_newline content ≠ "" →
    candidate ctx p s (Some (chop_newline content)) (with_world s w2).

(** The matches are visited in order; the id of the first match that yields
    a valid id is the result, the matches before it are skipped, and the
    result is the empty string when every match is skipped. *)
Inductive first_valid ctx : list string → State → string → State → Prop :=
| fv_none s : first_valid ctx [] s "" s
| fv_found p rest s id s' :
    candidate ctx p s (Some id) s' →
    first_valid ctx (p :: rest) s id s'
| fv_skip p rest s s1 id s' :
    candidate ctx p s None s1 →
    first_valid ctx rest s1 id s' →
    first_valid ctx (p :: rest) s id s'.

(** One turn of the loop of [cidPathGlobToID], as the code decides it. *)
Definition check_match ctx (p : string) : M (option string) :=
  '(id, err) ← cidPathToID fs ctx p;
  match err with
  | Some _ => mret None
  | None => if negb (String.eqb id "") then mret (Some id) else mret None
  end.

(** A computation ignores the remembered set when, from two states with
    the same client and the same world, it returns the same value and leaves
    the same client and the same world. *)
Definition ignores_remembered {A} (m : M A) : Prop :=
  ∀ s s',
    client (op s) = client (op s') →
    world s = world s' →
    (m s).1 = (m s').1
    ∧ client (op (m s).2) = client (op (m s').2)
    ∧ world (m s).2 = world (m s').2.

End Notions.

(** ** A scripted backend and file system

    A deterministic double of the collaborators, used to evaluate the methods
    on concrete inputs: the list query answers from a script, one answer per
    call; files, glob matches and container stats are tables. *)

Module Fake.

Record World : Type := mkWorld {
  lists : list (list Container * option error);
  files : list (string * string);
  unreadable : list string;
  bad_patterns : list string;
  matches : list (string * list string);
  stats : list (string * Stats)
}.

Fixpoint assoc {A} (k : string) (tbl : list (string * A)) : option A :=
  match tbl with
  | [] => None
  | (k', v) :: rest => if String.eqb k' k then Some v else assoc k rest
  end.

Definition mem (k : string) (l : list string) : bool :=
  existsb (String.eqb k) l.

Definition interactor : Interactor.t unit World :=
  Interactor.mk
    (λ _ w,
       match lists w with
       | [] => (([], None), w)
       | answer :: rest =>
           (answer, mkWorld rest (files w) (unreadable w) (bad_patterns w)
                      (matches w) (stats w))
       end)
    (λ _ id w,
       match assoc id (stats w) with
       | Some st => ((Some st, None), w)
       | None => ((None, Some (ForeignErr "no such container")), w)
       end)
    (λ _ id w,
       match assoc id (stats w) with
       | Some _ => (None, w)
       | None => (Some (ForeignErr "cannot kill container"), w)
       end).

Definition filesystem : FileSystem.t World :=
  FileSystem.mk
    (λ path dir,
       if strings.HasPrefix path slash then path else dir +:+ slash +:+ path)
    (λ path w,
       match assoc path (files w) with
       | Some _ => (None, w)
       | None =>
           if mem path (unreadable w) then (None, w)
           else (Some (ForeignErr "no such file or directory"), w)
       end)
    (λ path w,
       match assoc path (files w) with
       | Some content => ((content, None), w)
       | None => (("", Some (ForeignErr "cannot read file")), w)
       end)
    (λ pattern w,
       if mem pattern (bad_patterns w)
       then (([], Some (ForeignErr "syntax error in pattern")), w)
       else ((default [] (assoc pattern (matches w)), None), w)).

(** A state of the double: an operator that remembers the ids [ids]. *)
Definition state (ids : list string) (w : World) : State unit World :=
  {| op := {| client := interactor;
              existingContainers := list_to_map ((λ id, (id, true)) <$> ids) |};
     world := w |}.

(** Only the list script. *)
Definition backend (answers : list (list Container * option error)) : World :=
  mkWorld answers [] [] [] [] [].

End Fake.

(** Concrete containers and states of the double. *)

Module Demo.

Definition cA : Container := {| ID := "A"; Names := ["/a"] |}.
Definition cB : Container := {| ID := "B"; Names := ["/foo"; "/b"] |}.
Definition cC : Container := {| ID := "C"; Names := ["foo"] |}.

(** The operator remembers [A]; the backend lists [A], [B], [C]. *)
Definition s_diff : State unit Fake.World :=
  Fake.state ["A"] (Fake.backend [([cA; cB; cC], None)]).

(** The list query fails. *)
Definition s_down : State unit Fake.World :=
  Fake.state ["A"] (Fake.backend [([], Some (ForeignErr "daemon unreachable"))]).

(** A fresh operator; the backend lists [A], [B] and then [B], [C]. *)
Definition s_fresh : State unit Fake.World :=
  {| op := NewOperator Fake.interactor;
     world := Fake.backend [([cA; cB], None); ([cB; cC], None)] |}.

(** A fresh operator; the backend lists [A], [B] twice. *)
Definition s_twice : State unit Fake.World :=
  {| op := NewOperator Fake.interactor;
     world := Fake.backend [([cA; cB], None); ([cA; cB], None)] |}.

Definition abc123 : Container := {| ID := "abc123"; Names := ["/job"] |}.

(** The id file of a live container at the exact path. *)
Definition s_file : State unit Fake.World :=
  Fake.state []
    (Fake.mkWorld [([abc123], None)]
       [("/w/app.cid", "abc123" +:+ newline)] [] [] [] []).

(** Two id files match the glob: the first is stale, the second is live. *)
Definition s_glob : State unit Fake.World :=
  Fake.state []
    (Fake.mkWorld [([abc123], None); ([abc123], None)]
       [("/w/app1.cid", "old999" +:+ newline);
        ("/w/app2.cid", "abc123" +:+ newline)]
       [] ["/w/["]
       [("/w/app*.cid", ["/w/app1.cid"; "/w/app2.cid"])] []).

(** The list query fails, one file cannot be read, one pattern is
    malformed, and one id file matches a glob. *)
Definition s_failing : State unit Fake.World :=
  Fake.state []
    (Fake.mkWorld
       [([], Some (ForeignErr "daemon unreachable"));
        ([], Some (ForeignErr "daemon unreachable"))]
       [("/w/app.cid", "abc123" +:+ newline)]
       ["/w/locked.cid"] ["/w/["]
       [("/w/*.cid", ["/w/app.cid"])] []).

(** The id file has a second line after the id. *)
Definition s_two_lines : State unit Fake.World :=
  Fake.state []
    (Fake.mkWorld [([abc123], None)]
       [("/w/app.cid", "abc123" +:+ newline +:+ "started" +:+ newline)]
       [] [] [] []).

Definition unreachable : error := ForeignErr "daemon unreachable".
Definition list_failed : error :=
  OperatorErr ErrContainerList (Some unreachable).

End Demo.

(** * Package [internal]

    The functions of package [internal] that depend on nothing but the file
    system probe [os.Stat], the home directory and [filepath.Join]. *)

Module internal.

(** The reasons found in a [CertError] under [Type]. *)
Definition ErrParseCert : string := "could not be parsed".
Definition ErrExpiredCert : string := "is expired".
Definition ErrCreateCert : string := "could not be created".
Definition ErrExistsCert : string := "already exists".
Definition ErrEncodeCert : string := "could not encode".
Definition ErrNotFoundCert : string := "cert could not be found".

(** An error value that is not nil: an error of the operating system or of a
    library, of which only the message is known, or a [CertError]. *)
#[warnings="-register-all"]
Inductive error : Type :=
| ForeignErr (msg : string)
| CertError (Type_ : string) (Path : string) (Err : option error).

(** [Error()] of an error value. *)
Fixpoint Error (e : error) : string :=
  match e with
  | ForeignErr msg => msg
  | CertError t path cause =>
      let msg := path +:+ " " +:+ t in
      match cause with
      | Some c => msg +:+ " [" +:+ Error c +:+ "]"
      | None => msg
      end
  end.

Section Certs.

(** [W] is the state of the file system; [Stat] is [os.Stat], of which the
    code keeps only the error. *)
Context {W : Type}.
Variable Stat : string → W → option error * W.

(** [checkIfCertsExist]: the error made when a file exists carries the error
    of the probe, which is nil there. *)
Fixpoint checkIfCertsExist (certFiles : list string) (w : W)
  : option error * W :=
  match certFiles with
  | [] => (None, w)
  | cFile :: rest =>
      let '(err, w1) := Stat cFile w in
      match err with
      | None => (Some (CertError ErrExistsCert cFile err), w1)
      | Some _ => checkIfCertsExist rest w1
      end
  end.

(** The files are probed in turn and none of them exists. *)
Inductive all_missing : list string → W → W → Prop :=
| missing_nil w : all_missing [] w w
| missing_cons f rest w e w1 w2 :
    Stat f w = (Some e, w1) →
    all_missing rest w1 w2 →
    all_missing (f :: rest) w w2.

End Certs.

(** [TildaToHome].  [UserHomeDir] is what [os.UserHomeDir()] returns and
    [Join] is [filepath.Join]. *)
Definition TildaToHome (UserHomeDir : string * option error)
    (Join : string → string → string) (path : string) : string :=
  if String.eqb path "" then ""
  else
    let '(home, herr) := UserHomeDir in
    if bool_decide (herr = None) && negb (String.eqb home "")
       && strings.HasPrefix path "~/"
    then
      let path := strings.TrimLeft path "~/" in
      Join home path
    else path.

(** A double of the file system for [Stat]: the world is the list of the
    files that exist. *)
Definition stat_in (path : string) (existing : list string)
  : option error * list string :=
  if existsb (String.eqb path) existing then (None, existing)
  else (Some (ForeignErr "no such file or directory"), existing).

End internal.

(** * Properties *)

(** ** Strings *)

Lemma substring_all (s : string) : substring 0 (String.length s) s = s.
Proof. induction s as [|c s IH]; simpl; [done | by rewrite IH]. Qed.

(** Trimming the prefix ["/"] strips one leading slash, if there is one. *)
Lemma TrimPrefix_slash (s : string) :
  strings.TrimPrefix s slash =
  match s with
  | String c rest => if Ascii.eqb c "/" then rest else s
  | EmptyString => s
  end.
Proof.
  destruct s as [|c rest]; [done |].
  unfold strings.TrimPrefix, strings.HasPrefix, strings.slice_to,
    strings.slice_from; simpl.
  destruct (Ascii.eqb c "/"); [| done].
  replace (substring 0 0 rest) with EmptyString by (by destruct rest).
  by rewrite Nat.sub_0_r, substring_all.
Qed.

Lemma TrimSuffix_newline (s : string) :
  strings.TrimSuffix s newline = chop_newline s.
Proof.
  induction s as [|c [|c' rest] IH]; [done | |].
  - unfold strings.TrimSuffix, strings.HasSuffix, strings.slice_to,
      strings.slice_from; simpl.
    by destruct (Ascii.eqb c "010").
  - revert IH.
    unfold strings.TrimSuffix, strings.HasSuffix, strings.slice_to,
      strings.slice_from.
    change (chop_newline (String c (String c' rest)))
      with (String c (chop_newline (String c' rest))).
    cbn [String.length newline Nat.leb Nat.sub andb].
    rewrite !Nat.sub_0_r.
    cbn [substring].
    destruct (String.eqb _ _); intros <-; [| done].
    by destruct (String.length rest).
Qed.

Lemma chop_newline_app (t : string) : chop_newline (t +:+ newline) = t.
Proof.
  induction t as [|c t IH]; [done |].
  simpl. rewrite IH. by destruct (t +:+ newline) eqn:E; [destruct t |].
Qed.

Lemma chop_newline_id (s : string) :
  (∀ t, s ≠ t +:+ newline) → chop_newline s = s.
Proof.
  induction s as [|c [|c' rest] IH]; intros Hs; [done | |].
  - simpl. destruct (Ascii.eqb_spec c "010") as [->|]; [| done].
    by destruct (Hs "").
  - change (String c (chop_newline (String c' rest)) = String c (String c' rest)).
    f_equal. apply IH. intros t Ht. apply (Hs (String c t)). simpl.
    by rewrite Ht.
Qed.

(** ** The operator *)

Section Properties.

Context {Ctx W : Type}.
Variable fs : FileSystem.t W.

#[local] Abbreviation State := (State Ctx W).
#[local] Abbreviation Operator := (Operator Ctx W).
#[local] Abbreviation M := (M Ctx W).
#[local] Abbreviation keeps_operator :=
  (keeps_operator (Ctx := Ctx) (W := W)).

Implicit Types (s : State) (o : Operator) (ctx : Ctx) (w : W).
Implicit Types (C : list Container) (e : error) (id name : string).

Ltac unfold_M :=
  unfold mbind, mret, M_bind, M_ret, call_client, call_fs, read_existing,
    write_existing in *.

Lemma map_index_remembered o id :
  map_index (existingContainers o) id = true ↔ id ∈ remembered o.
Proof.
  unfold map_index, remembered.
  rewrite elem_of_dom. split.
  - destruct (existingContainers o !! id) as [b|] eqn:E; simpl; [| done].
    intros ->. exists true. by apply map_lookup_filter_Some.
  - intros [b [Hl Hb]%map_lookup_filter_Some]. simpl in Hb. subst b.
    by rewrite Hl.
Qed.

(** *** GetCurrentContainers *)

Lemma GetCurrentContainers_ok ctx s C w :
  list_query ctx s = ((C, None), w) →
  GetCurrentContainers ctx s = ((C, None), with_world s w).
Proof. unfold list_query, GetCurrentContainers. unfold_M. by intros ->. Qed.

Lemma GetCurrentContainers_fail ctx s C e w :
  list_query ctx s = ((C, Some e), w) →
  GetCurrentContainers ctx s =
    (([], Some (OperatorErr ErrContainerList (Some e))), with_world s w).
Proof. unfold list_query, GetCurrentContainers. unfold_M. by intros ->. Qed.

(** *** GetNewContainers *)

Lemma new_loop_spec C acc s :
  new_loop C acc s = (acc ++ unseen (op s) C, s).
Proof.
  revert acc. induction C as [|c C IH]; intros acc; simpl.
  - unfold_M. unfold unseen. by rewrite app_nil_r.
  - unfold_M. unfold unseen. rewrite filter_cons.
    destruct (map_index (existingContainers (op s)) (ID c)) eqn:E; simpl.
    + apply map_index_remembered in E. rewrite IH.
      by rewrite decide_False by (by intros []).
    + rewrite IH, decide_True, <- app_assoc; [done |].
      rewrite <- map_index_remembered. by rewrite E.
Qed.

Lemma ids_loop_spec (cs : list Container) (idx : nat) (out : list string) :
  (idx + length cs ≤ length out)%nat →
  ids_loop idx cs out =
    take idx out ++ (ID <$> cs) ++ drop (idx + length cs) out.
Proof.
  revert idx out. induction cs as [|c cs IH]; intros idx out Hlen; simpl.
  - by rewrite Nat.add_0_r, take_drop.
  - simpl in Hlen. rewrite IH by (rewrite length_insert; lia).
    rewrite take_S_r with (x := ID c)
      by (apply list_lookup_insert_eq; lia).
    rewrite take_insert_ge by lia.
    rewrite drop_insert_lt by lia.
    rewrite <- app_assoc. simpl. by rewrite Nat.add_succ_r.
Qed.

Lemma ids_loop_fresh (cs : list Container) :
  ids_loop 0 cs (replicate (length cs) "") = ID <$> cs.
Proof.
  rewrite ids_loop_spec by (rewrite length_replicate; lia).
  simpl. rewrite drop_ge by (rewrite length_replicate; lia).
  by rewrite app_nil_r.
Qed.

Lemma GetNewContainers_ok ctx s C w :
  list_query ctx s = ((C, None), w) →
  GetNewContainers ctx s = ((unseen (op s) C, None), with_world s w).
Proof.
  intros H. unfold GetNewContainers. unfold_M.
  rewrite (GetCurrentContainers_ok _ _ _ _ H).
  by rewrite new_loop_spec.
Qed.

Lemma GetNewContainers_fail ctx s C e w :
  list_query ctx s = ((C, Some e), w) →
  GetNewContainers ctx s =
    (([], Some (OperatorErr ErrContainerList (Some e))), with_world s w).
Proof.
  intros H. unfold GetNewContainers. unfold_M.
  by rewrite (GetCurrentContainers_fail _ _ _ _ _ H).
Qed.

Lemma GetNewContainerIDs_ok ctx s C w :
  list_query ctx s = ((C, None), w) →
  GetNewContainerIDs ctx s = ((ID <$> unseen (op s) C, None), with_world s w).
Proof.
  intros H. unfold GetNewContainerIDs. unfold_M.
  rewrite (GetNewContainers_ok _ _ _ _ H).
  by rewrite ids_loop_fresh.
Qed.

Lemma GetNewContainerIDs_fail ctx s C e w :
  list_query ctx s = ((C, Some e), w) →
  GetNewContainerIDs ctx s =
    (([], Some (OperatorErr ErrContainerList (Some e))), with_world s w).
Proof.
  intros H. unfold GetNewContainerIDs. unfold_M.
  by rewrite (GetNewContainers_fail _ _ _ _ _ H).
Qed.

(** C1. Whatever set the operator remembers and whatever list [C] the list
    query of the runtime client returns, [GetNewContainers] returns exactly
    the containers of [C] whose id is not remembered, in the order of [C]
    (and [GetNewContainerIDs] their ids, in that order); when the list query
    fails, no list is returned: the slice is nil and the error is not. *)
Theorem GetNewContainers_exact ctx s C err w :
  list_query ctx s = ((C, err), w) →
  match err with
  | None =>
      GetNewContainers ctx s =
        ((filter (λ c, ID c ∉ remembered (op s)) C, None), with_world s w)
      ∧ GetNewContainerIDs ctx s =
        ((ID <$> filter (λ c, ID c ∉ remembered (op s)) C, None),
         with_world s w)
  | Some e =>
      GetNewContainers ctx s =
        (([], Some (OperatorErr ErrContainerList (Some e))), with_world s w)
      ∧ GetNewContainerIDs ctx s =
        (([], Some (OperatorErr ErrContainerList (Some e))), with_world s w)
  end.
Proof.
  intros H. destruct err as [e|].
  - split.
    + by apply GetNewContainers_fail with C.
    + by apply GetNewContainerIDs_fail with C.
  - split.
    + by apply GetNewContainers_ok.
    + by apply GetNewContainerIDs_ok.
Qed.

(** *** Stats and kill *)

Lemma ContainerStats_fail ctx id s st e w :
  Interactor.ContainerStats (client (op s)) ctx id (world s) =
    ((st, Some e), w) →
  ContainerStats ctx id s = ((None, Some e), with_world s w).
Proof. unfold ContainerStats. unfold_M. by intros ->. Qed.

Lemma KillContainer_eq ctx id s r w :
  Interactor.ContainerKill (client (op s)) ctx id (world s) = (r, w) →
  KillContainer ctx id s = (r, with_world s w).
Proof. unfold KillContainer. unfold_M. by intros ->. Qed.

(** C7. When the list query of the backend fails with [e],
    [GetCurrentContainers] returns an [OperatorErr] whose reason is
    [ErrContainerList] and whose cause is [e] (its message is the fixed
    reason followed by the message of [e] in brackets); when the stats query
    or the kill query of the backend fails with [e], [ContainerStats] and
    [KillContainer] return [e] itself. *)
Theorem list_error_wrapped_stats_kill_errors_unchanged ctx s :
  (∀ C e w, list_query ctx s = ((C, Some e), w) →
     GetCurrentContainers ctx s =
       (([], Some (OperatorErr ErrContainerList (Some e))), with_world s w)
     ∧ Error (OperatorErr ErrContainerList (Some e)) =
       "Could not list the containers [" +:+ Error e +:+ "]")
  ∧ (∀ id st e w,
       Interactor.ContainerStats (client (op s)) ctx id (world s) =
         ((st, Some e), w) →
       ContainerStats ctx id s = ((None, Some e), with_world s w))
  ∧ (∀ id e w,
       Interactor.ContainerKill (client (op s)) ctx id (world s) =
         (Some e, w) →
       KillContainer ctx id s = (Some e, with_world s w)).
Proof.
  split; [| split].
  - intros C e w H. split; [by apply GetCurrentContainers_fail with C | done].
  - intros id st e w H. by apply ContainerStats_fail with st.
  - intros id e w H. by apply KillContainer_eq.
Qed.

(** *** The frame of the methods *)

Create HintDb frame.

Lemma keeps_ret {A} (a : A) : keeps_operator (mret a).
Proof. done. Qed.

Lemma keeps_bind {A B} (m : M A) (k : A → M B) :
  keeps_operator m → (∀ a, keeps_operator (k a)) → keeps_operator (m ≫= k).
Proof.
  intros Hm Hk s. unfold_M. specialize (Hm s).
  destruct (m s) as [a s1]. simpl in Hm. rewrite <- Hm. apply Hk.
Qed.

Lemma keeps_call_client {A} (f : Interactor.t Ctx W → W → A * W) :
  keeps_operator (call_client f).
Proof. intros s. unfold_M. by destruct (f _ _). Qed.

Lemma keeps_call_fs {A} (f : W → A * W) : keeps_operator (call_fs f).
Proof. intros s. unfold_M. by destruct (f _). Qed.

Lemma keeps_read_existing id : keeps_operator (read_existing id).
Proof. done. Qed.

#[local] Hint Resolve keeps_ret keeps_call_client keeps_call_fs
  keeps_read_existing : frame.

Ltac frame_step :=
  match goal with
  | |- keeps_operator (_ ≫= _) => apply keeps_bind; [| intros ?]
  | |- keeps_operator (match ?x with _ => _ end) => destruct x
  | |- keeps_operator _ => solve [auto with frame]
  end.

Ltac frame := repeat frame_step.

Lemma keeps_GetCurrentContainers ctx :
  keeps_operator (GetCurrentContainers ctx).
Proof. unfold GetCurrentContainers. frame. Qed.

#[local] Hint Resolve keeps_GetCurrentContainers : frame.

Lemma keeps_new_loop C acc : keeps_operator (new_loop C acc).
Proof. intros s. by rewrite new_loop_spec. Qed.

#[local] Hint Resolve keeps_new_loop : frame.

Lemma keeps_GetNewContainers ctx : keeps_operator (GetNewContainers ctx).
Proof. unfold GetNewContainers. frame. Qed.

#[local] Hint Resolve keeps_GetNewContainers : frame.

Lemma keeps_GetNewContainerIDs ctx : keeps_operator (GetNewContainerIDs ctx).
Proof. unfold GetNewContainerIDs. frame. Qed.

Lemma keeps_GetNewContainerIDByName ctx name :
  keeps_operator (GetNewContainerIDByName ctx name).
Proof. unfold GetNewContainerIDByName. frame. Qed.

Lemma keeps_verifyID ctx id : keeps_operator (verifyID ctx id).
Proof. unfold verifyID. frame. Qed.

#[local] Hint Resolve keeps_verifyID : frame.

Lemma keeps_cidPathToID ctx cidPath : keeps_operator (cidPathToID fs ctx cidPath).
Proof. unfold cidPathToID. frame. Qed.

#[local] Hint Resolve keeps_cidPathToID : frame.

Lemma keeps_glob_loop ctx paths : keeps_operator (glob_loop fs ctx paths).
Proof. induction paths as [|p paths IH]; simpl; frame. Qed.

#[local] Hint Resolve keeps_glob_loop : frame.

Lemma keeps_cidPathGlobToID ctx pattern :
  keeps_operator (cidPathGlobToID fs ctx pattern).
Proof. unfold cidPathGlobToID. frame. Qed.

#[local] Hint Resolve keeps_cidPathGlobToID : frame.

Lemma keeps_GetContainerIDByPath ctx path dir :
  keeps_operator (GetContainerIDByPath fs ctx path dir).
Proof. unfold GetContainerIDByPath. frame. Qed.

Lemma keeps_ContainerStats ctx id : keeps_operator (ContainerStats ctx id).
Proof. unfold ContainerStats. frame. Qed.

Lemma keeps_KillContainer ctx id : keeps_operator (KillContainer ctx id).
Proof. unfold KillContainer. frame. Qed.

(** C9. Every method of the operator other than
    [RememberCurrentContainerIDs] leaves the operator, and so its remembered
    set, as it found it, whatever the method returns: a result or an
    error. *)
Theorem only_Remember_mutates ctx s :
  op (GetCurrentContainers ctx s).2 = op s
  ∧ op (GetNewContainers ctx s).2 = op s
  ∧ op (GetNewContainerIDs ctx s).2 = op s
  ∧ (∀ name, op (GetNewContainerIDByName ctx name s).2 = op s)
  ∧ (∀ path dir, op (GetContainerIDByPath fs ctx path dir s).2 = op s)
  ∧ (∀ id, op (ContainerStats ctx id s).2 = op s)
  ∧ (∀ id, op (KillContainer ctx id s).2 = op s).
Proof.
  repeat split; intros.
  - apply keeps_GetCurrentContainers.
  - apply keeps_GetNewContainers.
  - apply keeps_GetNewContainerIDs.
  - apply keeps_GetNewContainerIDByName.
  - apply keeps_GetContainerIDByPath.
  - apply keeps_ContainerStats.
  - apply keeps_KillContainer.
Qed.

(** *** RememberCurrentContainerIDs *)

Lemma remember_loop_spec C s :
  remember_loop C s = (tt, {| op := remember_all (op s) C; world := world s |}).
Proof.
  revert s. induction C as [|c C IH]; intros s; simpl.
  - unfold_M. unfold remember_all. simpl. by destruct s as [[] ?].
  - unfold_M. by rewrite IH.
Qed.

Lemma remembered_insert (c : Interactor.t Ctx W) (m : gmap string bool) id :
  remembered {| client := c; existingContainers := <[id := true]> m |} =
  {[id]} ∪ remembered {| client := c; existingContainers := m |}.
Proof.
  unfold remembered. simpl.
  rewrite map_filter_insert_True by done. apply dom_insert_L.
Qed.

Lemma remembered_remember_all o C :
  remembered (remember_all o C) = remembered o ∪ ids_of C.
Proof.
  destruct o as [c m]. revert m.
  induction C as [|x C IH]; intros m.
  - unfold ids_of. simpl. set_solver.
  - unfold remember_all in *. simpl in *. rewrite IH, remembered_insert.
    unfold ids_of. simpl. set_solver.
Qed.

(** Writing ids that are already remembered changes nothing. *)
Lemma remember_all_again o C :
  ids_of C ⊆ remembered o → remember_all o C = o.
Proof.
  destruct o as [c m]. unfold remember_all, ids_of. simpl.
  induction C as [|x C IH]; intros Hsub; simpl in *; [done |].
  assert (m !! ID x = Some true) as Hx.
  { assert (ID x ∈ remembered {| client := c; existingContainers := m |})
      as Hin by set_solver.
    apply map_index_remembered in Hin. unfold map_index in Hin. simpl in Hin.
    by destruct (m !! ID x) as [[]|]. }
  rewrite (insert_id _ _ _ Hx). apply IH. set_solver.
Qed.

Lemma Remember_ok ctx s C w :
  list_query ctx s = ((C, None), w) →
  RememberCurrentContainerIDs ctx s =
    (None, {| op := remember_all (op s) C; world := w |}).
Proof.
  intros H. unfold RememberCurrentContainerIDs. unfold_M.
  rewrite (GetCurrentContainers_ok _ _ _ _ H).
  by rewrite remember_loop_spec.
Qed.

Lemma Remember_fail ctx s C e w :
  list_query ctx s = ((C, Some e), w) →
  RememberCurrentContainerIDs ctx s =
    (Some (OperatorErr ErrContainerList (Some e)), with_world s w).
Proof.
  intros H. unfold RememberCurrentContainerIDs. unfold_M.
  by rewrite (GetCurrentContainers_fail _ _ _ _ _ H).
Qed.

Lemma Remember_grows ctx s :
  remembered (op s) ⊆ remembered (op (RememberCurrentContainerIDs ctx s).2).
Proof.
  destruct (list_query ctx s) as [[C [e|]] w] eqn:H.
  - by rewrite (Remember_fail _ _ _ _ _ H).
  - rewrite (Remember_ok _ _ _ _ H). simpl.
    rewrite remembered_remember_all. set_solver.
Qed.

Lemma remember_run_union ctx s Ls s' :
  remember_run ctx s Ls s' →
  remembered (op s') = remembered (op s) ∪ ⋃ (ids_of <$> Ls).
Proof.
  induction 1 as [s | s C w s1 s2 Ls s' Hq Hcall Hop _ IH]; simpl.
  - set_solver.
  - rewrite IH, Hop. rewrite (Remember_ok _ _ _ _ Hq) in Hcall.
    injection Hcall as <-. simpl. rewrite remembered_remember_all.
    set_solver.
Qed.

Lemma remembered_NewOperator (c : Interactor.t Ctx W) :
  remembered (NewOperator c) = ∅.
Proof. unfold remembered, NewOperator. simpl. by rewrite map_filter_empty, dom_empty_L. Qed.

(** C4. [RememberCurrentContainerIDs] only adds to the remembered set.
    After any sequence of successful calls the remembered set is the set
    before the first call together with the ids of the lists observed at each
    call, so that for an operator made by [NewOperator] it is the union of
    the ids observed; a second call that observes the same list leaves the
    operator as the first call left it; and no call, successful or not,
    removes an id. *)
Theorem Remember_union ctx s :
  (∀ Ls s', remember_run ctx s Ls s' →
     remembered (op s') = remembered (op s) ∪ ⋃ (ids_of <$> Ls)
     ∧ (∀ c, op s = NewOperator c →
          remembered (op s') = ⋃ (ids_of <$> Ls)))
  ∧ (∀ C w s1 w',
       list_query ctx s = ((C, None), w) →
       RememberCurrentContainerIDs ctx s = (None, s1) →
       list_query ctx s1 = ((C, None), w') →
       RememberCurrentContainerIDs ctx s1 = (None, with_world s1 w'))
  ∧ remembered (op s) ⊆ remembered (op (RememberCurrentContainerIDs ctx s).2).
Proof.
  split; [| split].
  - intros Ls s' Hrun. pose proof (remember_run_union _ _ _ _ Hrun) as Hu.
    split; [done |]. intros c Hc. rewrite Hu, Hc, remembered_NewOperator.
    set_solver.
  - intros C w s1 w' Hq Hcall Hq1.
    rewrite (Remember_ok _ _ _ _ Hq) in Hcall. injection Hcall as <-.
    rewrite (Remember_ok _ _ _ _ Hq1). simpl. f_equal. unfold with_world.
    simpl. f_equal. apply remember_all_again.
    rewrite remembered_remember_all. set_solver.
  - apply Remember_grows.
Qed.

(** *** GetNewContainerIDByName *)

Lemma has_name_loop_spec name (names : list string) :
  has_name_loop name names = true ↔
  ∃ alias, alias ∈ names ∧ strip_slash alias = name.
Proof.
  induction names as [|a names IH]; simpl.
  - split; [done | by intros (? & ?%elem_of_nil & _)].
  - rewrite TrimPrefix_slash. fold (strip_slash a).
    destruct (String.eqb_spec (strip_slash a) name) as [Heq|Hne].
    + split; [| done]. intros _. exists a. split; [left | done].
    + rewrite IH. split.
      * intros (alias & Hin & Hs). exists alias. split; [by right | done].
      * intros (alias & Hin & Hs). apply elem_of_cons in Hin as [->|Hin];
          [done | by exists alias].
Qed.

Lemma HasName_named name c : HasName name c = true ↔ named name c.
Proof. apply has_name_loop_spec. Qed.

Lemma by_name_loop_first name (pre post : list Container) c :
  Forall (λ c', ¬ named name c') pre →
  named name c →
  by_name_loop name (pre ++ c :: post) = (ID c, None).
Proof.
  intros Hpre Hc. induction Hpre as [|x pre Hx _ IH]; simpl.
  - apply HasName_named in Hc. by rewrite Hc.
  - destruct (HasName name x) eqn:E; [| done].
    by apply HasName_named in E.
Qed.

Lemma by_name_loop_none name (cs : list Container) :
  Forall (λ c, ¬ named name c) cs → by_name_loop name cs = ("", None).
Proof.
  induction 1 as [|x cs Hx _ IH]; simpl; [done |].
  destruct (HasName name x) eqn:E; [| done].
  by apply HasName_named in E.
Qed.

Lemma GetNewContainerIDByName_ok ctx name s C w :
  list_query ctx s = ((C, None), w) →
  GetNewContainerIDByName ctx name s =
    (by_name_loop name (unseen (op s) C), with_world s w).
Proof.
  intros H. unfold GetNewContainerIDByName. unfold_M.
  by rewrite (GetNewContainers_ok _ _ _ _ H).
Qed.

Lemma GetNewContainerIDByName_fail ctx name s C e w :
  list_query ctx s = ((C, Some e), w) →
  GetNewContainerIDByName ctx name s =
    (("", Some (OperatorErr ErrContainerList (Some e))), with_world s w).
Proof.
  intros H. unfold GetNewContainerIDByName. unfold_M.
  by rewrite (GetNewContainers_fail _ _ _ _ _ H).
Qed.

(** C5. [HasName] holds of a container exactly when one of its aliases,
    with one leading path separator stripped if it has one, is equal to the
    name.  [GetNewContainerIDByName] returns the id of the first new
    container of which it holds, and the empty string with a nil error when
    it holds of none.  Names [["/foo"]] and names [["foo"]] match ["foo"],
    neither matches ["bar"], and only one separator is stripped. *)
Theorem GetNewContainerIDByName_first ctx name s C w :
  list_query ctx s = ((C, None), w) →
  (∀ c, HasName name c = true ↔ named name c)
  ∧ (∀ pre c post,
       filter (λ c, ID c ∉ remembered (op s)) C = pre ++ c :: post →
       Forall (λ c', ¬ named name c') pre →
       named name c →
       GetNewContainerIDByName ctx name s = ((ID c, None), with_world s w))
  ∧ (Forall (λ c, ¬ named name c)
       (filter (λ c, ID c ∉ remembered (op s)) C) →
     GetNewContainerIDByName ctx name s = (("", None), with_world s w))
  ∧ (∀ id, HasName "foo" {| ID := id; Names := ["/foo"] |} = true
           ∧ HasName "foo" {| ID := id; Names := ["foo"] |} = true
           ∧ HasName "bar" {| ID := id; Names := ["/foo"] |} = false
           ∧ HasName "bar" {| ID := id; Names := ["foo"] |} = false
           ∧ HasName "foo" {| ID := id; Names := ["//foo"] |} = false
           ∧ HasName "/foo" {| ID := id; Names := ["//foo"] |} = true).
Proof.
  intros H. split; [| split; [| split]].
  - intros c. apply HasName_named.
  - intros pre c post Hsplit Hpre Hc.
    rewrite (GetNewContainerIDByName_ok _ _ _ _ _ H).
    unfold unseen. rewrite Hsplit. by rewrite by_name_loop_first.
  - intros Hnone. rewrite (GetNewContainerIDByName_ok _ _ _ _ _ H).
    by rewrite by_name_loop_none.
  - intros id. by repeat split.
Qed.

(** *** GetContainerIDByPath: the file at the exact path *)

Lemma verify_loop_spec id C :
  verify_loop id C = (bool_decide (id ∈ ID <$> C), None).
Proof.
  induction C as [|c C IH]; simpl; [done |].
  destruct (String.eqb_spec (ID c) id) as [<-|Hne].
  - rewrite bool_decide_eq_true_2; [done | left].
  - rewrite IH. f_equal. apply bool_decide_ext.
    rewrite elem_of_cons. naive_solver.
Qed.

Lemma verifyID_ok ctx id s C w :
  list_query ctx s = ((C, None), w) →
  verifyID ctx id s = ((bool_decide (id ∈ ID <$> C), None), with_world s w).
Proof.
  intros H. unfold verifyID. unfold_M.
  rewrite (GetCurrentContainers_ok _ _ _ _ H). by rewrite verify_loop_spec.
Qed.

Lemma verifyID_fail ctx id s C e w :
  list_query ctx s = ((C, Some e), w) →
  verifyID ctx id s =
    ((false, Some (OperatorErr ErrContainerList (Some e))), with_world s w).
Proof.
  intros H. unfold verifyID. unfold_M.
  by rewrite (GetCurrentContainers_fail _ _ _ _ _ H).
Qed.

Lemma cidPathToID_unreadable ctx p s content e w :
  FileSystem.ReadFile fs p (world s) = ((content, Some e), w) →
  cidPathToID fs ctx p s = (("", Some e), with_world s w).
Proof. unfold cidPathToID. unfold_M. by intros ->. Qed.

Lemma cidPathToID_list_fail ctx p s content w1 C e w2 :
  FileSystem.ReadFile fs p (world s) = ((content, None), w1) →
  list_query ctx (with_world s w1) = ((C, Some e), w2) →
  cidPathToID fs ctx p s =
    (("", Some (OperatorErr ErrContainerList (Some e))), with_world s w2).
Proof.
  intros Hr Hq. unfold cidPathToID. unfold_M. rewrite Hr.
  by rewrite (verifyID_fail _ _ _ _ _ _ Hq).
Qed.

Lemma cidPathToID_ok ctx p s content w1 C w2 :
  FileSystem.ReadFile fs p (world s) = ((content, None), w1) →
  list_query ctx (with_world s w1) = ((C, None), w2) →
  cidPathToID fs ctx p s =
    ((if bool_decide (chop_newline content ∈ ID <$> C)
      then chop_newline content else "", None), with_world s w2).
Proof.
  intros Hr Hq. unfold cidPathToID. unfold_M. rewrite Hr.
  rewrite (verifyID_ok _ _ _ _ _ Hq), TrimSuffix_newline.
  by destruct (bool_decide _).
Qed.

Lemma GetContainerIDByPath_exists ctx path dir s w :
  FileSystem.Stat fs (FileSystem.RelToAbsPath fs path dir) (world s) =
    (None, w) →
  GetContainerIDByPath fs ctx path dir s =
    cidPathToID fs ctx (FileSystem.RelToAbsPath fs path dir) (with_world s w).
Proof. unfold GetContainerIDByPath. unfold_M. by intros ->. Qed.

Lemma GetContainerIDByPath_absent ctx path dir s e w :
  FileSystem.Stat fs (FileSystem.RelToAbsPath fs path dir) (world s) =
    (Some e, w) →
  GetContainerIDByPath fs ctx path dir s =
    cidPathGlobToID fs ctx (FileSystem.RelToAbsPath fs path dir)
      (with_world s w).
Proof. unfold GetContainerIDByPath. unfold_M. by intros ->. Qed.

(** C2. When a file exists at the resolved path, is read as [content], and
    the list query then returns [C]: the candidate id is [content] without
    its trailing newline, if it has one (one newline only is removed); if
    some container of [C] has that id the call returns it with a nil error;
    if none has, the call returns the empty string with a nil error. *)
Theorem GetContainerIDByPath_file ctx path dir s w1 content w2 C w3 :
  let cidPath := FileSystem.RelToAbsPath fs path dir in
  let id := chop_newline content in
  FileSystem.Stat fs cidPath (world s) = (None, w1) →
  FileSystem.ReadFile fs cidPath w1 = ((content, None), w2) →
  Interactor.ContainerList (client (op s)) ctx w2 = ((C, None), w3) →
  (∀ t, content = t +:+ newline → id = t)
  ∧ ((∀ t, content ≠ t +:+ newline) → id = content)
  ∧ ((∃ c, c ∈ C ∧ ID c = id) →
     GetContainerIDByPath fs ctx path dir s = ((id, None), with_world s w3))
  ∧ ((∀ c, c ∈ C → ID c ≠ id) →
     GetContainerIDByPath fs ctx path dir s = (("", None), with_world s w3)).
Proof.
  intros cidPath id Hstat Hread Hlist. subst cidPath.
  assert (GetContainerIDByPath fs ctx path dir s =
    ((if bool_decide (id ∈ ID <$> C) then id else "", None),
     with_world s w3)) as Hcall.
  { rewrite (GetContainerIDByPath_exists _ _ _ _ _ Hstat).
    by rewrite (cidPathToID_ok ctx _ (with_world s w1) content w2 C w3). }
  split; [| split; [| split]].
  - intros t ->. apply chop_newline_app.
  - apply chop_newline_id.
  - intros (c & Hc & Hid). rewrite Hcall, bool_decide_eq_true_2; [done |].
    apply list_elem_of_fmap. by exists c.
  - intros Hnone. rewrite Hcall, bool_decide_eq_false_2; [done |].
    intros (c & Hid & Hc)%list_elem_of_fmap. by apply (Hnone c).
Qed.

(** *** GetContainerIDByPath: the matches of a glob *)

Lemma glob_loop_cons ctx p rest s :
  glob_loop fs ctx (p :: rest) s =
  match check_match fs ctx p s with
  | (Some id, s1) => ((id, None), s1)
  | (None, s1) => glob_loop fs ctx rest s1
  end.
Proof.
  simpl. unfold check_match. unfold_M.
  destruct (cidPathToID fs ctx p s) as [[id [e|]] s1]; [done |].
  by destruct (negb (id =? "")%string).
Qed.

Lemma candidate_check_match ctx p s r s' :
  candidate fs ctx p s r s' ↔ check_match fs ctx p s = (r, s').
Proof.
  unfold check_match. split.
  - intros [content e w1 Hr | content w1 C e w2 Hr Hq | content w1 C w2 Hr Hq Hno
           | content w1 C w2 Hr Hq Hemp | content w1 C w2 c Hr Hq Hc Hid Hne];
      unfold_M.
    + by rewrite (cidPathToID_unreadable _ _ _ _ _ _ Hr).
    + by rewrite (cidPathToID_list_fail _ _ _ _ _ _ _ _ Hr Hq).
    + rewrite (cidPathToID_ok _ _ _ _ _ _ _ Hr Hq).
      rewrite bool_decide_eq_false_2; [done |].
      intros (c & Hid & Hc)%list_elem_of_fmap. by apply (Hno c).
    + rewrite (cidPathToID_ok _ _ _ _ _ _ _ Hr Hq), Hemp.
      by destruct (bool_decide _).
    + rewrite (cidPathToID_ok _ _ _ _ _ _ _ Hr Hq).
      rewrite bool_decide_eq_true_2
        by (apply list_elem_of_fmap; by exists c).
      by destruct (String.eqb_spec (chop_newline content) "").
  - unfold_M.
    destruct (FileSystem.ReadFile fs p (world s)) as [[content [e|]] w1] eqn:Hr.
    { rewrite (cidPathToID_unreadable _ _ _ _ _ _ Hr). intros [= <- <-].
      by eapply cand_unreadable. }
    destruct (list_query ctx (with_world s w1)) as [[C [e|]] w2] eqn:Hq.
    { rewrite (cidPathToID_list_fail _ _ _ _ _ _ _ _ Hr Hq). intros [= <- <-].
      by eapply cand_list_failed. }
    rewrite (cidPathToID_ok _ _ _ _ _ _ _ Hr Hq).
    destruct (decide (chop_newline content ∈ ID <$> C)) as [Hin|Hout].
    + rewrite bool_decide_eq_true_2 by done.
      destruct (String.eqb_spec (chop_newline content) "") as [Hemp|Hne];
        simpl; intros [= <- <-].
      * by eapply cand_empty.
      * apply list_elem_of_fmap in Hin as (c & Hid & Hc).
        by eapply cand_valid.
    + rewrite bool_decide_eq_false_2 by done. simpl. intros [= <- <-].
      eapply cand_stale; [done | done |].
      intros c Hc Hid. apply Hout, list_elem_of_fmap. by exists c.
Qed.

Lemma first_valid_glob_loop ctx paths s id s' :
  first_valid fs ctx paths s id s' ↔ glob_loop fs ctx paths s = ((id, None), s').
Proof.
  split.
  - induction 1 as [s | p rest s id s' Hc | p rest s s1 id s' Hc _ IH].
    + done.
    + rewrite glob_loop_cons. apply candidate_check_match in Hc. by rewrite Hc.
    + rewrite glob_loop_cons. apply candidate_check_match in Hc. by rewrite Hc.
  - revert s. induction paths as [|p rest IH]; intros s.
    + intros [= <- <-]. constructor.
    + rewrite glob_loop_cons.
      destruct (check_match fs ctx p s) as [[id1|] s1] eqn:Hc;
        apply candidate_check_match in Hc.
      * intros [= <- <-]. by apply fv_found.
      * intros Hrest. eapply fv_skip; [done | by apply IH].
Qed.

Lemma glob_loop_no_error ctx paths s :
  ∃ id s', glob_loop fs ctx paths s = ((id, None), s').
Proof.
  revert s. induction paths as [|p rest IH]; intros s.
  - by exists "", s.
  - rewrite glob_loop_cons. destruct (check_match fs ctx p s) as [[id1|] s1]; eauto.
Qed.

Lemma cidPathGlobToID_ok ctx pattern s paths w :
  FileSystem.Glob fs pattern (world s) = ((paths, None), w) →
  cidPathGlobToID fs ctx pattern s = glob_loop fs ctx paths (with_world s w).
Proof. unfold cidPathGlobToID. unfold_M. by intros ->. Qed.

Lemma cidPathGlobToID_fail ctx pattern s paths e w :
  FileSystem.Glob fs pattern (world s) = ((paths, Some e), w) →
  cidPathGlobToID fs ctx pattern s = (("", Some e), with_world s w).
Proof. unfold cidPathGlobToID. unfold_M. by intros ->. Qed.

(** C3. When no file exists at the resolved path, the path is expanded as a
    glob.  If the expansion gives the matches [paths], the call returns with
    a nil error, and what it returns is the id of the first match, in the
    order of [paths], whose file yields a valid id; the matches that cannot
    be read or yield no valid id are skipped, and the result is the empty
    string when no match yields a valid id.  If the expansion fails, as it
    does for a malformed pattern, its error is returned. *)
Theorem GetContainerIDByPath_glob ctx path dir s e0 w1 :
  let cidPath := FileSystem.RelToAbsPath fs path dir in
  FileSystem.Stat fs cidPath (world s) = (Some e0, w1) →
  (∀ paths w2,
     FileSystem.Glob fs cidPath w1 = ((paths, None), w2) →
     (∃ id s', GetContainerIDByPath fs ctx path dir s = ((id, None), s'))
     ∧ (∀ id s',
          first_valid fs ctx paths (with_world s w2) id s' ↔
          GetContainerIDByPath fs ctx path dir s = ((id, None), s')))
  ∧ (∀ paths e w2,
       FileSystem.Glob fs cidPath w1 = ((paths, Some e), w2) →
       GetContainerIDByPath fs ctx path dir s =
         (("", Some e), with_world s w2)).
Proof.
  intros cidPath Hstat. subst cidPath.
  rewrite (GetContainerIDByPath_absent _ _ _ _ _ _ Hstat). split.
  - intros paths w2 Hglob.
    rewrite (cidPathGlobToID_ok ctx _ (with_world s w1) paths w2 Hglob).
    split; [apply glob_loop_no_error |].
    intros id s'. apply first_valid_glob_loop.
  - intros paths e w2 Hglob.
    by rewrite (cidPathGlobToID_fail ctx _ (with_world s w1) paths e w2 Hglob).
Qed.

(** *** Failures of the collaborators *)

Lemma glob_loop_skips_failure ctx p rest s id e s1 :
  cidPathToID fs ctx p s = ((id, Some e), s1) →
  glob_loop fs ctx (p :: rest) s = glob_loop fs ctx rest s1.
Proof. intros H. simpl. unfold_M. by rewrite H. Qed.

(** C6, as the code has it.  A failure of the list query is returned,
    wrapped, by every method that starts with a list query; a failure of the
    stats or kill query is returned as it is; for a file that exists at the
    exact path, a failure to read it is returned as it is and a failure of
    the list query is returned wrapped; a failure of the glob expansion is
    returned as it is.  Two failures are not returned.  The failure of the
    probe for a file at the exact path selects the glob expansion.  And
    while the matches of a glob are checked, a match whose file cannot be
    read, or for which the list query fails, is skipped: the call goes on
    with the remaining matches, from the state that check left. *)
Theorem failures_returned_except_in_glob ctx s :
  (∀ C e w,
     list_query ctx s = ((C, Some e), w) →
     let wrapped := Some (OperatorErr ErrContainerList (Some e)) in
     GetCurrentContainers ctx s = (([], wrapped), with_world s w)
     ∧ RememberCurrentContainerIDs ctx s = (wrapped, with_world s w)
     ∧ GetNewContainers ctx s = (([], wrapped), with_world s w)
     ∧ GetNewContainerIDs ctx s = (([], wrapped), with_world s w)
     ∧ (∀ name,
          GetNewContainerIDByName ctx name s = (("", wrapped), with_world s w)))
  ∧ (∀ id st e w,
       Interactor.ContainerStats (client (op s)) ctx id (world s) =
         ((st, Some e), w) →
       ContainerStats ctx id s = ((None, Some e), with_world s w))
  ∧ (∀ id e w,
       Interactor.ContainerKill (client (op s)) ctx id (world s) =
         (Some e, w) →
       KillContainer ctx id s = (Some e, with_world s w))
  ∧ (∀ path dir w1,
       FileSystem.Stat fs (FileSystem.RelToAbsPath fs path dir) (world s) =
         (None, w1) →
       (∀ content e w2,
          FileSystem.ReadFile fs (FileSystem.RelToAbsPath fs path dir) w1 =
            ((content, Some e), w2) →
          GetContainerIDByPath fs ctx path dir s =
            (("", Some e), with_world s w2))
       ∧ (∀ content w2 C e w3,
            FileSystem.ReadFile fs (FileSystem.RelToAbsPath fs path dir) w1 =
              ((content, None), w2) →
            Interactor.ContainerList (client (op s)) ctx w2 =
              ((C, Some e), w3) →
            GetContainerIDByPath fs ctx path dir s =
              (("", Some (OperatorErr ErrContainerList (Some e))),
               with_world s w3)))
  ∧ (∀ path dir e0 w1,
       FileSystem.Stat fs (FileSystem.RelToAbsPath fs path dir) (world s) =
         (Some e0, w1) →
       GetContainerIDByPath fs ctx path dir s =
         cidPathGlobToID fs ctx (FileSystem.RelToAbsPath fs path dir)
           (with_world s w1)
       ∧ (∀ paths e w2,
            FileSystem.Glob fs (FileSystem.RelToAbsPath fs path dir) w1 =
              ((paths, Some e), w2) →
            GetContainerIDByPath fs ctx path dir s =
              (("", Some e), with_world s w2)))
  ∧ (∀ p rest,
       (∀ content e w1,
          FileSystem.ReadFile fs p (world s) = ((content, Some e), w1) →
          glob_loop fs ctx (p :: rest) s =
            glob_loop fs ctx rest (with_world s w1))
       ∧ (∀ content w1 C e w2,
            FileSystem.ReadFile fs p (world s) = ((content, None), w1) →
            Interactor.ContainerList (client (op s)) ctx w1 =
              ((C, Some e), w2) →
            glob_loop fs ctx (p :: rest) s =
              glob_loop fs ctx rest (with_world s w2))).
Proof.
  split; [| split; [| split; [| split; [| split]]]].
  - intros C e w H wrapped. subst wrapped. repeat split.
    + by apply GetCurrentContainers_fail with C.
    + by apply Remember_fail with C.
    + by apply GetNewContainers_fail with C.
    + by apply GetNewContainerIDs_fail with C.
    + intros name. by apply GetNewContainerIDByName_fail with C.
  - intros id st e w H. by apply ContainerStats_fail with st.
  - intros id e w H. by apply KillContainer_eq.
  - intros path dir w1 Hstat.
    rewrite (GetContainerIDByPath_exists _ _ _ _ _ Hstat). split.
    + intros content e w2 Hr.
      by rewrite (cidPathToID_unreadable ctx _ (with_world s w1) content e w2).
    + intros content w2 C e w3 Hr Hq.
      by rewrite (cidPathToID_list_fail ctx _ (with_world s w1) content w2 C e w3).
  - intros path dir e0 w1 Hstat.
    rewrite (GetContainerIDByPath_absent _ _ _ _ _ _ Hstat).
    split; [done |]. intros paths e w2 Hglob.
    by rewrite (cidPathGlobToID_fail ctx _ (with_world s w1) paths e w2 Hglob).
  - intros p rest. split.
    + intros content e w1 Hr. eapply glob_loop_skips_failure.
      by apply cidPathToID_unreadable with content.
    + intros content w1 C e w2 Hr Hq. eapply glob_loop_skips_failure.
      by apply cidPathToID_list_fail with content w1 C.
Qed.

End Properties.

(** * The methods on concrete inputs *)

(** The operator remembers [A] and the backend lists [A], [B], [C]: the new
    containers are [B] and [C]. *)
Lemma GetNewContainers_exact_witness :
  GetNewContainers tt Demo.s_diff =
    (([Demo.cB; Demo.cC], None), with_world Demo.s_diff (Fake.backend []))
  ∧ GetNewContainerIDs tt Demo.s_diff =
    ((["B"; "C"], None), with_world Demo.s_diff (Fake.backend [])).
Proof.
  exact (GetNewContainers_exact tt Demo.s_diff [Demo.cA; Demo.cB; Demo.cC]
           None (Fake.backend []) eq_refl).
Defined.

(** The list query fails and the container is unknown to the backend. *)
Lemma list_error_wrapped_stats_kill_errors_unchanged_witness :
  (GetCurrentContainers tt Demo.s_down).1 = ([], Some Demo.list_failed)
  ∧ Error Demo.list_failed =
    "Could not list the containers [daemon unreachable]"
  ∧ (ContainerStats tt "abc123" Demo.s_down).1 =
    (None, Some (ForeignErr "no such container"))
  ∧ (KillContainer tt "abc123" Demo.s_down).1 =
    Some (ForeignErr "cannot kill container").
Proof.
  destruct (list_error_wrapped_stats_kill_errors_unchanged tt Demo.s_down)
    as (Hlist & Hstats & Hkill).
  destruct (Hlist [] Demo.unreachable (Fake.backend []) eq_refl) as [H1 H2].
  split; [by rewrite H1 | split; [exact H2 | split]].
  - by rewrite (Hstats "abc123" None (ForeignErr "no such container")
                  (world Demo.s_down) eq_refl).
  - by rewrite (Hkill "abc123" (ForeignErr "cannot kill container")
                  (world Demo.s_down) eq_refl).
Defined.

(** Two calls that observe [A], [B] and then [B], [C]; two calls that observe
    the same list; and a call on an operator that remembers [A]. *)
Lemma Remember_union_witness :
  remembered
    (op (RememberCurrentContainerIDs tt
           (RememberCurrentContainerIDs tt Demo.s_fresh).2).2) =
    {["A"; "B"; "C"]}
  ∧ RememberCurrentContainerIDs tt
      (RememberCurrentContainerIDs tt Demo.s_twice).2 =
    (None, with_world (RememberCurrentContainerIDs tt Demo.s_twice).2
             (Fake.backend []))
  ∧ remembered (op Demo.s_diff) ⊆
    remembered (op (RememberCurrentContainerIDs tt Demo.s_diff).2).
Proof.
  split; [| split].
  - destruct (Remember_union tt Demo.s_fresh) as (Hrun & _ & _).
    destruct (Hrun [[Demo.cA; Demo.cB]; [Demo.cB; Demo.cC]]
                (RememberCurrentContainerIDs tt
                   (RememberCurrentContainerIDs tt Demo.s_fresh).2).2)
      as [_ Hnew].
    + eapply run_call; [reflexivity | reflexivity | reflexivity |].
      eapply run_call; [reflexivity | reflexivity | reflexivity |].
      apply run_done.
    + rewrite (Hnew Fake.interactor eq_refl). unfold ids_of. simpl.
      set_solver.
  - destruct (Remember_union tt Demo.s_twice) as (_ & Hsame & _).
    exact (Hsame [Demo.cA; Demo.cB] _ _ (Fake.backend []) eq_refl eq_refl
             eq_refl).
  - destruct (Remember_union tt Demo.s_diff) as (_ & _ & Hgrow). exact Hgrow.
Defined.

(** Of the new containers [B] and [C], [B] is the first one named [foo];
    none is named [bar]. *)
Lemma GetNewContainerIDByName_first_witness :
  GetNewContainerIDByName tt "foo" Demo.s_diff =
    (("B", None), with_world Demo.s_diff (Fake.backend []))
  ∧ GetNewContainerIDByName tt "bar" Demo.s_diff =
    (("", None), with_world Demo.s_diff (Fake.backend [])).
Proof.
  split.
  - destruct (GetNewContainerIDByName_first tt "foo" Demo.s_diff
                [Demo.cA; Demo.cB; Demo.cC] (Fake.backend []) eq_refl)
      as (_ & Hfirst & _).
    apply (Hfirst [] Demo.cB [Demo.cC] eq_refl).
    + constructor.
    + exists "/foo". split; [constructor | reflexivity].
  - destruct (GetNewContainerIDByName_first tt "bar" Demo.s_diff
                [Demo.cA; Demo.cB; Demo.cC] (Fake.backend []) eq_refl)
      as (Hname & _ & Hnone & _).
    apply Hnone.
    repeat constructor; intros H; apply Hname in H; discriminate H.
Defined.

(** The id file at the exact path holds the id of a live container and a
    newline. *)
Lemma GetContainerIDByPath_file_witness :
  GetContainerIDByPath Fake.filesystem tt "app.cid" "/w" Demo.s_file =
    (("abc123", None),
     with_world Demo.s_file
       (Fake.mkWorld [] [("/w/app.cid", "abc123" +:+ newline)] [] [] [] [])).
Proof.
  destruct (GetContainerIDByPath_file Fake.filesystem tt "app.cid" "/w"
              Demo.s_file (world Demo.s_file) ("abc123" +:+ newline)
              (world Demo.s_file) [Demo.abc123]
              (Fake.mkWorld [] [("/w/app.cid", "abc123" +:+ newline)]
                 [] [] [] [])
              eq_refl eq_refl eq_refl)
    as (_ & _ & Hlive & _).
  apply Hlive. exists Demo.abc123. split; [constructor | reflexivity].
Defined.

(** The glob matches a stale id file and then a live one: the result is the
    id of the second.  A malformed pattern gives the error of the glob. *)
Lemma GetContainerIDByPath_glob_witness :
  (GetContainerIDByPath Fake.filesystem tt "app*.cid" "/w" Demo.s_glob).1 =
    ("abc123", None)
  ∧ (∃ s', first_valid Fake.filesystem tt ["/w/app1.cid"; "/w/app2.cid"]
             Demo.s_glob "abc123" s')
  ∧ (GetContainerIDByPath Fake.filesystem tt "/w/[" "/w" Demo.s_glob).1 =
    ("", Some (ForeignErr "syntax error in pattern")).
Proof.
  destruct (GetContainerIDByPath_glob Fake.filesystem tt "app*.cid" "/w"
              Demo.s_glob (ForeignErr "no such file or directory")
              (world Demo.s_glob) eq_refl) as [Hok _].
  destruct (Hok ["/w/app1.cid"; "/w/app2.cid"] (world Demo.s_glob) eq_refl)
    as [(id & s' & Hcall) Hiff].
  destruct (GetContainerIDByPath_glob Fake.filesystem tt "/w/[" "/w"
              Demo.s_glob (ForeignErr "no such file or directory")
              (world Demo.s_glob) eq_refl) as [_ Hbad].
  split; [reflexivity | split].
  - exists s'. apply Hiff. rewrite Hcall. f_equal.
    apply (f_equal fst) in Hcall. exact (eq_sym Hcall).
  - by rewrite (Hbad [] (ForeignErr "syntax error in pattern")
                  (world Demo.s_glob) eq_refl).
Defined.

(** Each failure on a state where the list query fails, a file is
    unreadable and a pattern is malformed. *)
Lemma failures_returned_except_in_glob_witness :
  (GetNewContainers tt Demo.s_failing).1 = ([], Some Demo.list_failed)
  ∧ RememberCurrentContainerIDs tt Demo.s_failing =
    (Some Demo.list_failed,
     with_world Demo.s_failing
       (Interactor.ContainerList Fake.interactor tt (world Demo.s_failing)).2)
  ∧ (ContainerStats tt "abc123" Demo.s_failing).1 =
    (None, Some (ForeignErr "no such container"))
  ∧ (KillContainer tt "abc123" Demo.s_failing).1 =
    Some (ForeignErr "cannot kill container")
  ∧ (GetContainerIDByPath Fake.filesystem tt "locked.cid" "/w"
       Demo.s_failing).1 = ("", Some (ForeignErr "cannot read file"))
  ∧ (GetContainerIDByPath Fake.filesystem tt "app.cid" "/w"
       Demo.s_failing).1 = ("", Some Demo.list_failed)
  ∧ (GetContainerIDByPath Fake.filesystem tt "/w/[" "/w"
       Demo.s_failing).1 = ("", Some (ForeignErr "syntax error in pattern"))
  ∧ glob_loop Fake.filesystem tt ["/w/locked.cid"; "/w/app.cid"]
      Demo.s_failing =
    glob_loop Fake.filesystem tt ["/w/app.cid"] Demo.s_failing
  ∧ (glob_loop Fake.filesystem tt ["/w/app.cid"] Demo.s_failing).1 =
    ("", None).
Proof.
  destruct (failures_returned_except_in_glob Fake.filesystem tt Demo.s_failing)
    as (Hlist & Hstats & Hkill & Hfile & Hglob & Hskip).
  destruct (Hlist [] Demo.unreachable _ eq_refl) as (_ & Hrem & Hnew & _).
  destruct (Hfile "locked.cid" "/w" (world Demo.s_failing) eq_refl)
    as [Hread _].
  destruct (Hfile "app.cid" "/w" (world Demo.s_failing) eq_refl)
    as [_ Hverify].
  destruct (Hglob "/w/[" "/w" (ForeignErr "no such file or directory")
              (world Demo.s_failing) eq_refl) as [_ Hbad].
  destruct (Hskip "/w/locked.cid" ["/w/app.cid"]) as [Hskip1 _].
  destruct (Hskip "/w/app.cid" []) as [_ Hskip2].
  split_and!.
  - by rewrite Hnew.
  - exact Hrem.
  - by rewrite (Hstats "abc123" None (ForeignErr "no such container")
                  (world Demo.s_failing) eq_refl).
  - by rewrite (Hkill "abc123" (ForeignErr "cannot kill container")
                  (world Demo.s_failing) eq_refl).
  - by rewrite (Hread "" (ForeignErr "cannot read file")
                  (world Demo.s_failing) eq_refl).
  - by rewrite (Hverify ("abc123" +:+ newline) (world Demo.s_failing) []
                  Demo.unreachable _ eq_refl eq_refl).
  - by rewrite (Hbad [] (ForeignErr "syntax error in pattern")
                  (world Demo.s_failing) eq_refl).
  - exact (Hskip1 "" (ForeignErr "cannot read file") (world Demo.s_failing)
             eq_refl).
  - by rewrite (Hskip2 ("abc123" +:+ newline) (world Demo.s_failing) []
                  Demo.unreachable _ eq_refl eq_refl).
Defined.

(** C6 as stated fails.  No file exists at ["/w/*.cid"], the id file
    ["/w/app.cid"] matches that glob and the backend is down: the list query
    fails while the match is checked, and [GetContainerIDByPath] returns the
    empty string with a nil error. *)
Lemma glob_list_failure_not_returned :
  (FileSystem.Stat Fake.filesystem "/w/*.cid" (world Demo.s_failing)).1 =
    Some (ForeignErr "no such file or directory")
  ∧ (Interactor.ContainerList Fake.interactor tt (world Demo.s_failing)).1 =
    ([], Some Demo.unreachable)
  ∧ (FileSystem.Glob Fake.filesystem "/w/*.cid" (world Demo.s_failing)).1 =
    (["/w/app.cid"], None)
  ∧ (GetContainerIDByPath Fake.filesystem tt "*.cid" "/w" Demo.s_failing).1 =
    ("", None).
Proof. split_and!; reflexivity. Qed.

(** C8 on a concrete file.  The id file holds the id of the live container
    [abc123] on its first line and a second line after it: the code takes
    the whole content but its last newline as the id, finds no container
    with that id, and returns the empty string with a nil error, not the
    id on the first line. *)
Theorem first_line_not_recognised :
  (FileSystem.ReadFile Fake.filesystem "/w/app.cid" (world Demo.s_two_lines)).1
    = ("abc123" +:+ newline +:+ "started" +:+ newline, None)
  ∧ (Interactor.ContainerList Fake.interactor tt (world Demo.s_two_lines)).1
    = ([Demo.abc123], None)
  ∧ (GetContainerIDByPath Fake.filesystem tt "app.cid" "/w"
       Demo.s_two_lines).1 = ("", None).
Proof. split_and!; reflexivity. Qed.

(** * Further properties of the operator *)

Section MoreProperties.

Context {Ctx W : Type}.
Variable fs : FileSystem.t W.

#[local] Abbreviation State := (State Ctx W).
#[local] Abbreviation Operator := (Operator Ctx W).
#[local] Abbreviation M := (M Ctx W).

Implicit Types (s : State) (o : Operator) (ctx : Ctx) (w : W).
Implicit Types (C : list Container) (e : error) (id name : string).

Ltac unfold_M :=
  unfold mbind, mret, M_bind, M_ret, call_client, call_fs, read_existing,
    write_existing in *.

(** *** New containers *)

Lemma unseen_nothing_remembered o C : remembered o = ∅ → unseen o C = C.
Proof.
  intros H. unfold unseen. rewrite H.
  induction C as [|c C IH]; [done |].
  rewrite filter_cons, decide_True by set_solver. by rewrite IH.
Qed.

Lemma unseen_all_remembered o C : ids_of C ⊆ remembered o → unseen o C = [].
Proof.
  unfold unseen, ids_of.
  induction C as [|c C IH]; intros H; [done |]. simpl in H.
  rewrite filter_cons, decide_False by set_solver. apply IH. set_solver.
Qed.

Lemma unseen_ext o o' C : remembered o = remembered o' → unseen o C = unseen o' C.
Proof. unfold unseen. by intros ->. Qed.

(** X1. For an operator just made by [NewOperator] every container is new:
    [GetNewContainers] returns the whole list of the backend, in its order,
    and [GetNewContainerIDs] the ids of all of it. *)
Theorem fresh_operator_all_new ctx (c : Interactor.t Ctx W) (w0 w : W) C :
  list_query ctx {| op := NewOperator c; world := w0 |} = ((C, None), w) →
  GetNewContainers ctx {| op := NewOperator c; world := w0 |} =
    ((C, None), {| op := NewOperator c; world := w |})
  ∧ GetNewContainerIDs ctx {| op := NewOperator c; world := w0 |} =
    ((ID <$> C, None), {| op := NewOperator c; world := w |}).
Proof.
  intros H. split.
  - rewrite (GetNewContainers_ok _ _ _ _ H). simpl.
    by rewrite unseen_nothing_remembered by apply remembered_NewOperator.
  - rewrite (GetNewContainerIDs_ok _ _ _ _ H). simpl.
    by rewrite unseen_nothing_remembered by apply remembered_NewOperator.
Qed.

(** X2. Once [RememberCurrentContainerIDs] has succeeded on the list [C1],
    the containers that [GetNewContainers] reports of a list [C2] are those
    that were new before and whose id is not an id of [C1].  So when every
    id of [C2] is an id of [C1], as when the backend has not changed,
    nothing is new: [GetNewContainers] and [GetNewContainerIDs] return no
    element and [GetNewContainerIDByName] the empty string, for any name. *)
Theorem nothing_new_after_Remember ctx s C1 w1 s1 C2 w2 :
  list_query ctx s = ((C1, None), w1) →
  op s1 = op (RememberCurrentContainerIDs ctx s).2 →
  list_query ctx s1 = ((C2, None), w2) →
  GetNewContainers ctx s1 =
    ((filter (λ c, ID c ∉ remembered (op s) ∪ ids_of C1) C2, None),
     with_world s1 w2)
  ∧ (ids_of C2 ⊆ ids_of C1 →
     GetNewContainers ctx s1 = (([], None), with_world s1 w2)
     ∧ GetNewContainerIDs ctx s1 = (([], None), with_world s1 w2)
     ∧ ∀ name,
         GetNewContainerIDByName ctx name s1 = (("", None), with_world s1 w2)).
Proof.
  intros H1 Hop H2.
  rewrite (Remember_ok _ _ _ _ H1) in Hop. simpl in Hop.
  assert (remembered (op s1) = remembered (op s) ∪ ids_of C1) as Hrem
    by (by rewrite Hop, remembered_remember_all).
  split.
  - rewrite (GetNewContainers_ok _ _ _ _ H2). unfold unseen.
    by rewrite Hrem.
  - intros Hsub.
    assert (unseen (op s1) C2 = []) as Hnone
      by (apply unseen_all_remembered; set_solver).
    split; [| split].
    + by rewrite (GetNewContainers_ok _ _ _ _ H2), Hnone.
    + by rewrite (GetNewContainerIDs_ok _ _ _ _ H2), Hnone.
    + intros name.
      by rewrite (GetNewContainerIDByName_ok _ _ _ _ _ H2), Hnone.
Qed.

(** *** The remembered set does not depend on the order of the list *)

Lemma remember_all_lookup o C (k : string) :
  existingContainers (remember_all o C) !! k =
  if decide (k ∈ ids_of C) then Some true else existingContainers o !! k.
Proof.
  destruct o as [c m]. unfold remember_all, ids_of. simpl. revert m.
  induction C as [|x C IH]; intros m; simpl.
  - by rewrite decide_False by set_solver.
  - rewrite IH. destruct (decide (k ∈ (list_to_set (ID <$> C) : gset string)))
      as [Hin|Hout].
    + by rewrite decide_True by set_solver.
    + destruct (decide (k = ID x)) as [->|Hne].
      * rewrite decide_True by set_solver. apply lookup_insert_eq.
      * rewrite decide_False by set_solver. by apply lookup_insert_ne.
Qed.

(** X3. What [RememberCurrentContainerIDs] leaves in the operator depends on
    the set of ids of the list it observes only: two lists with the same
    ids, in any order and with any repetitions, leave the same operator. *)
Theorem Remember_order_irrelevant ctx s s' C C' w w' :
  op s = op s' →
  list_query ctx s = ((C, None), w) →
  list_query ctx s' = ((C', None), w') →
  ids_of C = ids_of C' →
  op (RememberCurrentContainerIDs ctx s).2 =
  op (RememberCurrentContainerIDs ctx s').2.
Proof.
  intros Hop H H' Hids.
  rewrite (Remember_ok _ _ _ _ H), (Remember_ok _ _ _ _ H'). simpl.
  rewrite <- Hop. destruct (op s) as [c m] eqn:E.
  unfold remember_all at 1 2. simpl. f_equal. apply map_eq. intros k.
  pose proof (remember_all_lookup {| client := c; existingContainers := m |}
                C k) as L.
  pose proof (remember_all_lookup {| client := c; existingContainers := m |}
                C' k) as L'.
  unfold remember_all in L, L'. simpl in L, L'.
  rewrite L, L', Hids. done.
Qed.

(** *** Names *)

Lemma HasPrefix_slash (s : string) :
  strings.HasPrefix s slash =
  match s with
  | String c _ => Ascii.eqb c "/"
  | EmptyString => false
  end.
Proof.
  destruct s as [|c rest]; [done |].
  unfold strings.HasPrefix, strings.slice_to. simpl.
  replace (substring 0 0 rest) with EmptyString by (by destruct rest).
  by destruct (Ascii.eqb c "/").
Qed.

Lemma strip_slash_eq (alias name : string) :
  strip_slash alias = name ↔
  alias = slash +:+ name ∨ (alias = name ∧ strings.HasPrefix name slash = false).
Proof.
  split.
  - destruct alias as [|c rest]; simpl.
    + intros <-. by right.
    + destruct (Ascii.eqb_spec c "/") as [->|Hne].
      * intros <-. by left.
      * intros <-. right. split; [done |]. rewrite HasPrefix_slash.
        by apply Ascii.eqb_neq.
  - intros [-> | [-> Hno]]; [done |].
    rewrite HasPrefix_slash in Hno. destruct name as [|c rest]; [done |].
    simpl. by rewrite Hno.
Qed.

(** X4. [HasName] holds of a container for a name exactly when the name
    with a slash in front is one of its aliases, or the name itself is one of
    its aliases and does not begin with a slash.  So a name that begins with
    a slash never matches the alias equal to it. *)
Theorem HasName_iff name (c : Container) :
  HasName name c = true ↔
  (slash +:+ name) ∈ Names c
  ∨ (name ∈ Names c ∧ strings.HasPrefix name slash = false).
Proof.
  rewrite HasName_named. unfold named. split.
  - intros (alias & Hin & [-> | [-> Hno]]%strip_slash_eq); [by left | by right].
  - intros [Hin | [Hin Hno]].
    + exists (slash +:+ name). split; [done |]. apply strip_slash_eq. by left.
    + exists name. split; [done |]. apply strip_slash_eq. by right.
Qed.

Lemma by_name_loop_no_error name (cs : list Container) :
  (by_name_loop name cs).2 = None.
Proof.
  induction cs as [|c cs IH]; simpl; [done |]. by destruct (HasName name c).
Qed.

Lemma by_name_loop_sound name (cs : list Container) id err :
  by_name_loop name cs = (id, err) →
  id ≠ "" →
  ∃ c, c ∈ cs ∧ ID c = id ∧ HasName name c = true.
Proof.
  induction cs as [|c cs IH]; simpl.
  - by intros [= <- _].
  - destruct (HasName name c) eqn:E.
    + intros [= <- _] _. exists c. split_and!; [left | done | done].
    + intros H Hne. destruct (IH H Hne) as (c' & Hin & Hid & Hn).
      exists c'. split_and!; [by right | done | done].
Qed.

(** X7. When the list query returns [C] and [GetNewContainerIDByName]
    returns an id that is not the empty string, that id is the id of a
    container of [C] that has the name and is not remembered, and it is one
    of the ids that [GetNewContainerIDs] returns in the same state: a
    remembered container is never found by name. *)
Theorem GetNewContainerIDByName_sound ctx name s C w id err s' :
  list_query ctx s = ((C, None), w) →
  GetNewContainerIDByName ctx name s = ((id, err), s') →
  id ≠ "" →
  err = None
  ∧ (∃ c, c ∈ C ∧ ID c = id ∧ (ID c ∉ remembered (op s))
          ∧ HasName name c = true)
  ∧ id ∈ (GetNewContainerIDs ctx s).1.1.
Proof.
  intros H Hcall Hne.
  rewrite (GetNewContainerIDByName_ok _ _ _ _ _ H) in Hcall.
  injection Hcall as Hloop _.
  pose proof (by_name_loop_no_error name (unseen (op s) C)) as Herr.
  rewrite Hloop in Herr. simpl in Herr.
  destruct (by_name_loop_sound _ _ _ _ Hloop Hne) as (c & Hin & Hid & Hn).
  split_and!; [done | |].
  - apply list_elem_of_filter in Hin as [Hnew Hin]. by exists c.
  - rewrite (GetNewContainerIDs_ok _ _ _ _ H). simpl.
    apply list_elem_of_fmap. by exists c.
Qed.

(** *** No value comes with an error *)

Lemma GetCurrentContainers_zero ctx s l e :
  (GetCurrentContainers ctx s).1 = (l, Some e) → l = [].
Proof.
  destruct (list_query ctx s) as [[C [e'|]] w] eqn:H.
  - rewrite (GetCurrentContainers_fail _ _ _ _ _ H). by intros [= <- _].
  - by rewrite (GetCurrentContainers_ok _ _ _ _ H).
Qed.

Lemma GetNewContainers_zero ctx s l e :
  (GetNewContainers ctx s).1 = (l, Some e) → l = [].
Proof.
  destruct (list_query ctx s) as [[C [e'|]] w] eqn:H.
  - rewrite (GetNewContainers_fail _ _ _ _ _ H). by intros [= <- _].
  - by rewrite (GetNewContainers_ok _ _ _ _ H).
Qed.

Lemma GetNewContainerIDs_zero ctx s l e :
  (GetNewContainerIDs ctx s).1 = (l, Some e) → l = [].
Proof.
  destruct (list_query ctx s) as [[C [e'|]] w] eqn:H.
  - rewrite (GetNewContainerIDs_fail _ _ _ _ _ H). by intros [= <- _].
  - by rewrite (GetNewContainerIDs_ok _ _ _ _ H).
Qed.

Lemma GetNewContainerIDByName_zero ctx name s id e :
  (GetNewContainerIDByName ctx name s).1 = (id, Some e) → id = "".
Proof.
  destruct (list_query ctx s) as [[C [e'|]] w] eqn:H.
  - rewrite (GetNewContainerIDByName_fail _ _ _ _ _ _ H). by intros [= <- _].
  - rewrite (GetNewContainerIDByName_ok _ _ _ _ _ H). simpl. intros Hr.
    pose proof (by_name_loop_no_error name (unseen (op s) C)) as Hn.
    by rewrite Hr in Hn.
Qed.

Lemma cidPathToID_zero ctx p s id e :
  (cidPathToID fs ctx p s).1 = (id, Some e) → id = "".
Proof.
  destruct (FileSystem.ReadFile fs p (world s)) as [[content [e1|]] w1] eqn:Hr.
  { rewrite (cidPathToID_unreadable _ _ _ _ _ _ _ Hr). by intros [= <- _]. }
  destruct (list_query ctx (with_world s w1)) as [[C [e2|]] w2] eqn:Hq.
  - rewrite (cidPathToID_list_fail _ _ _ _ _ _ _ _ _ Hr Hq).
    by intros [= <- _].
  - by rewrite (cidPathToID_ok _ _ _ _ _ _ _ _ Hr Hq).
Qed.

Lemma GetContainerIDByPath_zero ctx path dir s id e :
  (GetContainerIDByPath fs ctx path dir s).1 = (id, Some e) → id = "".
Proof.
  destruct (FileSystem.Stat fs (FileSystem.RelToAbsPath fs path dir) (world s))
    as [[e0|] w1] eqn:Hs.
  - rewrite (GetContainerIDByPath_absent _ _ _ _ _ _ _ Hs).
    destruct (FileSystem.Glob fs (FileSystem.RelToAbsPath fs path dir) w1)
      as [[paths [e1|]] w2] eqn:Hg.
    + rewrite (cidPathGlobToID_fail fs ctx _ (with_world s w1) paths e1 w2 Hg).
      by intros [= <- _].
    + rewrite (cidPathGlobToID_ok fs ctx _ (with_world s w1) paths w2 Hg).
      destruct (glob_loop_no_error fs ctx paths (with_world (with_world s w1) w2))
        as (id' & s' & ->).
      done.
  - rewrite (GetContainerIDByPath_exists _ _ _ _ _ _ Hs).
    apply cidPathToID_zero.
Qed.

Lemma ContainerStats_zero ctx id s st e :
  (ContainerStats ctx id s).1 = (st, Some e) → st = None.
Proof.
  unfold ContainerStats. unfold_M.
  destruct (Interactor.ContainerStats _ _ _ _) as [[st' [e'|]] w]; simpl.
  - by intros [= <- _].
  - done.
Qed.

(** X5. No method returns a value together with an error: whenever the
    error a method returns is not nil, the list it returns is empty, the id
    is the empty string, the stats are nil; whatever the backend and the
    file system answer, even a backend that answers with both a value and an
    error. *)
Theorem no_value_with_error ctx s :
  (∀ l e, (GetCurrentContainers ctx s).1 = (l, Some e) → l = [])
  ∧ (∀ l e, (GetNewContainers ctx s).1 = (l, Some e) → l = [])
  ∧ (∀ l e, (GetNewContainerIDs ctx s).1 = (l, Some e) → l = [])
  ∧ (∀ name id e,
       (GetNewContainerIDByName ctx name s).1 = (id, Some e) → id = "")
  ∧ (∀ path dir id e,
       (GetContainerIDByPath fs ctx path dir s).1 = (id, Some e) → id = "")
  ∧ (∀ id st e, (ContainerStats ctx id s).1 = (st, Some e) → st = None).
Proof.
  split_and!.
  - apply GetCurrentContainers_zero.
  - apply GetNewContainers_zero.
  - apply GetNewContainerIDs_zero.
  - intros name. apply GetNewContainerIDByName_zero.
  - intros path dir. apply GetContainerIDByPath_zero.
  - intros id. apply ContainerStats_zero.
Qed.

(** *** The id resolved from a path is a listed id *)

Lemma cidPathToID_sound ctx p s id err s' :
  cidPathToID fs ctx p s = ((id, err), s') →
  id ≠ "" →
  err = None
  ∧ (∃ w content w', FileSystem.ReadFile fs p w = ((content, None), w')
                     ∧ id = chop_newline content)
  ∧ (∃ w C w' c, Interactor.ContainerList (client (op s)) ctx w =
                   ((C, None), w')
                 ∧ c ∈ C ∧ ID c = id).
Proof.
  destruct (FileSystem.ReadFile fs p (world s)) as [[content [e1|]] w1] eqn:Hr.
  { rewrite (cidPathToID_unreadable _ _ _ _ _ _ _ Hr). by intros [= <- _ _]. }
  destruct (list_query ctx (with_world s w1)) as [[C [e2|]] w2] eqn:Hq.
  { rewrite (cidPathToID_list_fail _ _ _ _ _ _ _ _ _ Hr Hq).
    by intros [= <- _ _]. }
  rewrite (cidPathToID_ok _ _ _ _ _ _ _ _ Hr Hq).
  destruct (decide (chop_newline content ∈ ID <$> C)) as [Hin|Hout].
  - rewrite bool_decide_eq_true_2 by done. intros [= <- <- _] _.
    apply list_elem_of_fmap in Hin as (c & Hid & Hc).
    split_and!; [done | by exists (world s), content, w1 |].
    by exists w1, C, w2, c.
  - rewrite bool_decide_eq_false_2 by done. by intros [= <- _ _].
Qed.

Lemma glob_loop_sound ctx paths s id err s' :
  glob_loop fs ctx paths s = ((id, err), s') →
  id ≠ "" →
  err = None
  ∧ (∃ p w content w', p ∈ paths
                       ∧ FileSystem.ReadFile fs p w = ((content, None), w')
                       ∧ id = chop_newline content)
  ∧ (∃ w C w' c, Interactor.ContainerList (client (op s)) ctx w =
                   ((C, None), w')
                 ∧ c ∈ C ∧ ID c = id).
Proof.
  revert s. induction paths as [|p rest IH]; intros s.
  { by intros [= <- _ _]. }
  simpl. unfold_M.
  destruct (cidPathToID fs ctx p s) as [[id1 err1] s1] eqn:Hc.
  pose proof (keeps_cidPathToID fs ctx p s) as Hop. rewrite Hc in Hop.
  simpl in Hop.
  assert (glob_loop fs ctx rest s1 = ((id, err), s') → id ≠ "" →
    err = None
    ∧ (∃ p0 w content w', p0 ∈ p :: rest
         ∧ FileSystem.ReadFile fs p0 w = ((content, None), w')
         ∧ id = chop_newline content)
    ∧ (∃ w C w' c, Interactor.ContainerList (client (op s)) ctx w =
                     ((C, None), w')
                   ∧ c ∈ C ∧ ID c = id)) as Hrest.
  { intros Hl Hne. destruct (IH s1 Hl Hne) as (He & Hf & Hb).
    rewrite Hop in Hb. split_and!; [done | | done].
    destruct Hf as (p0 & w & content & w' & Hin & Hread & Hid).
    exists p0, w, content, w'. split_and!; [by right | done | done]. }
  destruct err1 as [e1|]; [done |].
  destruct (String.eqb_spec id1 "") as [->|Hne1]; simpl; [done |].
  intros [= <- <- <-] Hne.
  destruct (cidPathToID_sound _ _ _ _ _ _ Hc Hne) as (_ & Hf & Hb).
  split_and!; [done | | done].
  destruct Hf as (w & content & w' & Hread & Hid).
  exists p, w, content, w'. split_and!; [by left | done | done].
Qed.


(** *** What does not depend on the remembered set *)

#[local] Abbreviation ignores_remembered :=
  (ignores_remembered (Ctx := Ctx) (W := W)).

Lemma ignores_ret {A} (a : A) : ignores_remembered (mret a).
Proof. by intros s s' Hc Hw. Qed.

Lemma ignores_bind {A B} (m : M A) (k : A → M B) :
  ignores_remembered m →
  (∀ a, ignores_remembered (k a)) →
  ignores_remembered (m ≫= k).
Proof.
  intros Hm Hk s s' Hc Hw. unfold_M.
  destruct (Hm s s' Hc Hw) as (Hv & Hc1 & Hw1).
  destruct (m s) as [a s1], (m s') as [a' s1']. simpl in *. subst a'.
  by apply Hk.
Qed.

Lemma ignores_call_client {A} (f : Interactor.t Ctx W → W → A * W) :
  ignores_remembered (call_client f).
Proof.
  intros s s' Hc Hw. unfold_M. rewrite Hc, Hw.
  by destruct (f _ _).
Qed.

Lemma ignores_call_fs {A} (f : W → A * W) : ignores_remembered (call_fs f).
Proof.
  intros s s' Hc Hw. unfold_M. rewrite Hw.
  by destruct (f _).
Qed.

Ltac ignores_step :=
  match goal with
  | |- ignores_remembered (_ ≫= _) => apply ignores_bind; [| intros ?]
  | |- ignores_remembered (match ?x with _ => _ end) => destruct x
  | |- ignores_remembered (mret _) => apply ignores_ret
  | |- ignores_remembered (call_client _) => apply ignores_call_client
  | |- ignores_remembered (call_fs _) => apply ignores_call_fs
  | |- ignores_remembered _ => assumption
  end.

Lemma ignores_GetCurrentContainers ctx :
  ignores_remembered (GetCurrentContainers ctx).
Proof. unfold GetCurrentContainers. repeat ignores_step. Qed.

Lemma ignores_verifyID ctx id : ignores_remembered (verifyID ctx id).
Proof.
  unfold verifyID. pose proof (ignores_GetCurrentContainers ctx).
  repeat ignores_step.
Qed.

Lemma ignores_cidPathToID ctx p : ignores_remembered (cidPathToID fs ctx p).
Proof.
  unfold cidPathToID. repeat ignores_step. apply ignores_verifyID.
Qed.

Lemma ignores_glob_loop ctx paths :
  ignores_remembered (glob_loop fs ctx paths).
Proof.
  induction paths as [|p paths IH]; simpl; repeat ignores_step.
  apply ignores_cidPathToID.
Qed.

Lemma ignores_GetContainerIDByPath ctx path dir :
  ignores_remembered (GetContainerIDByPath fs ctx path dir).
Proof.
  unfold GetContainerIDByPath, cidPathGlobToID.
  pose proof (ignores_cidPathToID ctx (FileSystem.RelToAbsPath fs path dir)).
  repeat ignores_step. apply ignores_glob_loop.
Qed.

Lemma ignores_ContainerStats ctx id : ignores_remembered (ContainerStats ctx id).
Proof. unfold ContainerStats. repeat ignores_step. Qed.

Lemma ignores_KillContainer ctx id : ignores_remembered (KillContainer ctx id).
Proof. unfold KillContainer. repeat ignores_step. Qed.

(** X10. What [GetContainerIDByPath], [GetCurrentContainers],
    [ContainerStats] and [KillContainer] return does not depend on the
    remembered set: two operators with the same client, in the same world,
    get the same answers, so a container that has been remembered is still
    resolved from its id file. *)
Theorem resolution_ignores_remembered ctx s s' :
  client (op s) = client (op s') →
  world s = world s' →
  (∀ path dir, (GetContainerIDByPath fs ctx path dir s).1 =
               (GetContainerIDByPath fs ctx path dir s').1)
  ∧ (GetCurrentContainers ctx s).1 = (GetCurrentContainers ctx s').1
  ∧ (∀ id, (ContainerStats ctx id s).1 = (ContainerStats ctx id s').1)
  ∧ (∀ id, (KillContainer ctx id s).1 = (KillContainer ctx id s').1).
Proof.
  intros Hc Hw. split_and!.
  - intros path dir. by apply ignores_GetContainerIDByPath.
  - by apply ignores_GetCurrentContainers.
  - intros id. by apply ignores_ContainerStats.
  - intros id. by apply ignores_KillContainer.
Qed.

End MoreProperties.

(** * Properties of package [internal] *)

Section CertFiles.

Context {W : Type}.
Variable Stat : string → W → option internal.error * W.

Lemma checkIfCertsExist_missing (files : list string) (w w' : W) :
  internal.all_missing Stat files w w' ↔
  internal.checkIfCertsExist Stat files w = (None, w').
Proof.
  split.
  - induction 1 as [w | f rest w e w1 w2 Hs _ IH]; simpl; [done |].
    by rewrite Hs.
  - revert w. induction files as [|f rest IH]; intros w; simpl.
    + intros [= <-]. constructor.
    + destruct (Stat f w) as [[e|] w1] eqn:Hs; [| done].
      intros H. eapply internal.missing_cons; [done | by apply IH].
Qed.

Lemma checkIfCertsExist_app (pre post : list string) (w w1 : W) :
  internal.all_missing Stat pre w w1 →
  internal.checkIfCertsExist Stat (pre ++ post) w =
  internal.checkIfCertsExist Stat post w1.
Proof.
  induction 1 as [w | f rest w e w1 w2 Hs _ IH]; simpl; [done |].
  by rewrite Hs.
Qed.

Lemma checkIfCertsExist_error (files : list string) (w w' : W) e :
  internal.checkIfCertsExist Stat files w = (Some e, w') →
  ∃ f, f ∈ files ∧ e = internal.CertError internal.ErrExistsCert f None.
Proof.
  revert w. induction files as [|f rest IH]; intros w; simpl; [done |].
  destruct (Stat f w) as [[e0|] w1] eqn:Hs.
  - intros H. destruct (IH _ H) as (f' & Hin & ->). exists f'.
    split; [by right | done].
  - intros [= <- _]. exists f. split; [left | done].
Qed.

(** X8. [checkIfCertsExist] probes the files in order.  It returns nil
    exactly when every probe fails; otherwise it stops at the first file
    whose probe succeeds, without probing the files after it, and returns a
    [CertError] with reason [ErrExistsCert], the path of that file and no
    cause, whose message is the path followed by " already exists".  Any
    error it returns is of that form, for one of the files. *)
Theorem checkIfCertsExist_first (files : list string) (w : W) :
  (∀ w', internal.all_missing Stat files w w' ↔
         internal.checkIfCertsExist Stat files w = (None, w'))
  ∧ (∀ pre f post w1 w2,
       files = pre ++ f :: post →
       internal.all_missing Stat pre w w1 →
       Stat f w1 = (None, w2) →
       internal.checkIfCertsExist Stat files w =
         (Some (internal.CertError internal.ErrExistsCert f None), w2)
       ∧ internal.Error (internal.CertError internal.ErrExistsCert f None) =
         f +:+ " already exists")
  ∧ (∀ e w',
       internal.checkIfCertsExist Stat files w = (Some e, w') →
       ∃ f, f ∈ files
            ∧ e = internal.CertError internal.ErrExistsCert f None).
Proof.
  split_and!.
  - intros w'. apply checkIfCertsExist_missing.
  - intros pre f post w1 w2 -> Hpre Hs. split; [| done].
    rewrite (checkIfCertsExist_app _ _ _ _ Hpre). simpl. by rewrite Hs.
  - intros e w'. apply checkIfCertsExist_error.
Qed.

End CertFiles.

Lemma TrimLeft_head (s cutset : string) c rest :
  strings.TrimLeft s cutset = String c rest →
  existsb (Ascii.eqb c) (list_ascii_of_string cutset) = false.
Proof.
  induction s as [|a s IH]; simpl; [done |].
  destruct (existsb (Ascii.eqb a) (list_ascii_of_string cutset)) eqn:E;
    [done |].
  by intros [= <- _].
Qed.

Lemma HasPrefix_tilde_slash (rest : string) :
  strings.HasPrefix ("~/" +:+ rest) "~/" = true.
Proof.
  unfold strings.HasPrefix, strings.slice_to. simpl.
  by destruct rest.
Qed.

(** X9. [TildaToHome] returns the path unaltered when it is empty, when the
    home directory cannot be determined or is empty, or when the path does
    not begin with "~/".  Otherwise it joins the home directory with the
    path stripped of every leading tilde and slash, not of the leading "~/"
    only: what is joined never begins with a tilde or a slash. *)
Theorem TildaToHome_spec (home : string) (herr : option internal.error)
    (Join : string → string → string) (path : string) :
  (herr ≠ None ∨ home = "" ∨ strings.HasPrefix path "~/" = false →
   internal.TildaToHome (home, herr) Join path = path)
  ∧ (∀ rest,
       herr = None → home ≠ "" → path = "~/" +:+ rest →
       internal.TildaToHome (home, herr) Join path =
         Join home (strings.TrimLeft rest "~/")
       ∧ ∀ c tail, strings.TrimLeft rest "~/" = String c tail →
                   c ≠ "~"%char ∧ c ≠ "/"%char).
Proof.
  split.
  - unfold internal.TildaToHome.
    destruct (String.eqb_spec path "") as [->|Hp]; [done |].
    intros [Herr | [-> | Hpre]].
    + by rewrite bool_decide_eq_false_2.
    + simpl. by rewrite andb_false_r.
    + by rewrite Hpre, andb_false_r.
  - intros rest -> Hhome ->. split.
    + unfold internal.TildaToHome.
      replace (("~/" +:+ rest =? "")%string) with false by done.
      rewrite HasPrefix_tilde_slash, bool_decide_eq_true_2 by done.
      by destruct (String.eqb_spec home "").
    + intros c tail Ht. apply TrimLeft_head in Ht. simpl in Ht.
      split; intros ->; discriminate Ht.
Qed.

(** * The further properties on concrete inputs *)

(** A fresh operator and a backend that lists [A], [B]. *)
Lemma fresh_operator_all_new_witness :
  GetNewContainers tt
    {| op := NewOperator Fake.interactor;
       world := Fake.backend [([Demo.cA; Demo.cB], None)] |} =
    (([Demo.cA; Demo.cB], None),
     {| op := NewOperator Fake.interactor; world := Fake.backend [] |})
  ∧ GetNewContainerIDs tt
      {| op := NewOperator Fake.interactor;
         world := Fake.backend [([Demo.cA; Demo.cB], None)] |} =
    ((["A"; "B"], None),
     {| op := NewOperator Fake.interactor; world := Fake.backend [] |}).
Proof.
  exact (fresh_operator_all_new tt Fake.interactor
           (Fake.backend [([Demo.cA; Demo.cB], None)]) (Fake.backend [])
           [Demo.cA; Demo.cB] eq_refl).
Defined.

(** The backend lists [A], [B] twice; the operator remembers in between. *)
Lemma nothing_new_after_Remember_witness :
  GetNewContainers tt (RememberCurrentContainerIDs tt Demo.s_twice).2 =
    (([], None),
     with_world (RememberCurrentContainerIDs tt Demo.s_twice).2
       (Fake.backend []))
  ∧ GetNewContainerIDByName tt "foo"
      (RememberCurrentContainerIDs tt Demo.s_twice).2 =
    (("", None),
     with_world (RememberCurrentContainerIDs tt Demo.s_twice).2
       (Fake.backend [])).
Proof.
  destruct (nothing_new_after_Remember tt Demo.s_twice [Demo.cA; Demo.cB]
              (Fake.backend [([Demo.cA; Demo.cB], None)])
              (RememberCurrentContainerIDs tt Demo.s_twice).2
              [Demo.cA; Demo.cB] (Fake.backend []) eq_refl eq_refl eq_refl)
    as [_ Hsame].
  destruct (Hsame (reflexivity _)) as (Hnew & _ & Hname).
  split; [exact Hnew | exact (Hname "foo")].
Defined.

(** The lists [A], [B] and [B], [A], [B] leave the same operator. *)
Lemma Remember_order_irrelevant_witness :
  op (RememberCurrentContainerIDs tt
        (Fake.state [] (Fake.backend [([Demo.cA; Demo.cB], None)]))).2 =
  op (RememberCurrentContainerIDs tt
        (Fake.state []
           (Fake.backend [([Demo.cB; Demo.cA; Demo.cB], None)]))).2.
Proof.
  apply (Remember_order_irrelevant tt _ _ [Demo.cA; Demo.cB]
           [Demo.cB; Demo.cA; Demo.cB] (Fake.backend []) (Fake.backend []));
    [reflexivity | reflexivity | reflexivity |].
  unfold ids_of. simpl. set_solver.
Defined.

(** The list query answers with a list and an error, or with an error
    only; a file cannot be verified; a container is unknown. *)
Lemma no_value_with_error_witness :
  (GetCurrentContainers tt
     (Fake.state [] (Fake.backend [([Demo.cA], Some Demo.unreachable)]))).1.1
    = []
  ∧ (GetNewContainers tt Demo.s_down).1.1 = []
  ∧ (GetNewContainerIDs tt Demo.s_down).1.1 = []
  ∧ (GetNewContainerIDByName tt "foo" Demo.s_down).1.1 = ""
  ∧ (GetContainerIDByPath Fake.filesystem tt "app.cid" "/w"
       Demo.s_failing).1.1 = ""
  ∧ (ContainerStats tt "abc123" Demo.s_down).1.1 = None.
Proof.
  destruct (no_value_with_error Fake.filesystem tt
              (Fake.state []
                 (Fake.backend [([Demo.cA], Some Demo.unreachable)])))
    as (Hcur & _).
  destruct (no_value_with_error Fake.filesystem tt Demo.s_down)
    as (_ & Hnew & Hids & Hname & _ & Hstats).
  destruct (no_value_with_error Fake.filesystem tt Demo.s_failing)
    as (_ & _ & _ & _ & Hpath & _).
  split_and!.
  - exact (Hcur _ Demo.list_failed eq_refl).
  - exact (Hnew _ Demo.list_failed eq_refl).
  - exact (Hids _ Demo.list_failed eq_refl).
  - exact (Hname "foo" _ Demo.list_failed eq_refl).
  - exact (Hpath "app.cid" "/w" _ Demo.list_failed eq_refl).
  - exact (Hstats "abc123" _ (ForeignErr "no such container") eq_refl).
Defined.


(** Of [A] remembered and [B], [C] new, the container named [foo] is [B]. *)
Lemma GetNewContainerIDByName_sound_witness :
  (None : option error) = None
  ∧ (∃ c, c ∈ [Demo.cA; Demo.cB; Demo.cC] ∧ ID c = "B"
          ∧ (ID c ∉ remembered (op Demo.s_diff))
          ∧ HasName "foo" c = true)
  ∧ "B" ∈ (GetNewContainerIDs tt Demo.s_diff).1.1.
Proof.
  apply (GetNewContainerIDByName_sound tt "foo" Demo.s_diff
           [Demo.cA; Demo.cB; Demo.cC] (Fake.backend []) "B" None
           (with_world Demo.s_diff (Fake.backend [])) eq_refl eq_refl).
  discriminate.
Defined.

(** The container [abc123] is remembered and is still resolved. *)
Lemma resolution_ignores_remembered_witness :
  (GetContainerIDByPath Fake.filesystem tt "app.cid" "/w"
     (Fake.state ["abc123"] (world Demo.s_file))).1 = ("abc123", None).
Proof.
  destruct (resolution_ignores_remembered Fake.filesystem tt
              (Fake.state ["abc123"] (world Demo.s_file)) Demo.s_file
              eq_refl eq_refl) as (Hpath & _).
  rewrite (Hpath "app.cid" "/w"). reflexivity.
Defined.

(** Of three files the second and the third exist. *)
Lemma checkIfCertsExist_first_witness :
  internal.checkIfCertsExist internal.stat_in
    ["ca.pem"; "cert.pem"; "key.pem"] ["cert.pem"; "key.pem"] =
    (Some (internal.CertError internal.ErrExistsCert "cert.pem" None),
     ["cert.pem"; "key.pem"])
  ∧ internal.Error (internal.CertError internal.ErrExistsCert "cert.pem" None)
    = "cert.pem already exists"
  ∧ internal.checkIfCertsExist internal.stat_in
      ["ca.pem"; "cert.pem"; "key.pem"] [] = (None, []).
Proof.
  destruct (checkIfCertsExist_first internal.stat_in
              ["ca.pem"; "cert.pem"; "key.pem"] ["cert.pem"; "key.pem"])
    as (_ & Hfirst & _).
  destruct (Hfirst ["ca.pem"] "cert.pem" ["key.pem"] ["cert.pem"; "key.pem"]
              ["cert.pem"; "key.pem"] eq_refl) as [Hcall Hmsg].
  { eapply internal.missing_cons; [reflexivity | constructor]. }
  { reflexivity. }
  destruct (checkIfCertsExist_first internal.stat_in
              ["ca.pem"; "cert.pem"; "key.pem"] []) as (Hnone & _ & _).
  split_and!; [exact Hcall | exact Hmsg |].
  apply Hnone.
  repeat (eapply internal.missing_cons; [reflexivity |]). constructor.
Defined.

(** The home directory is ["/home/u"] and the path has two tildes. *)
Lemma TildaToHome_spec_witness :
  internal.TildaToHome ("/home/u", None) (λ a b, a +:+ "/" +:+ b) "~/~/x" =
    "/home/u/x"
  ∧ internal.TildaToHome ("", None) (λ a b, a +:+ "/" +:+ b) "~/x" = "~/x".
Proof.
  destruct (TildaToHome_spec "/home/u" None (λ a b, a +:+ "/" +:+ b) "~/~/x")
    as [_ Hjoin].
  destruct (Hjoin "~/x" eq_refl) as [Hcall _]; [discriminate | reflexivity |].
  destruct (TildaToHome_spec "" None (λ a b, a +:+ "/" +:+ b) "~/x")
    as [Hsame _].
  split; [exact Hcall | apply Hsame; right; left; reflexivity].
Defined.
